(** * Queenstown building footprints: renderer, animation loop and tooltip

  A shallow embedding of [script.js].  The script is a single AMD callback
  whose inner functions close over a handful of mutable variables; each
  group of closure variables becomes a record here and each inner function
  a function on that record.

  Numbers.  The script computes on JavaScript numbers, IEEE doubles.

  The year of the slider and of the animation only takes the
  half-integers from 1871 to 2022 (integer slider step, animation step
  0.5), on which the arithmetic of doubles is exact.  Years are modelled
  as exact rationals in lowest terms ([Qc]), so that equal numbers are
  equal terms; [Binary64] below runs the same update on doubles and
  checks that it agrees on every year of the page.

  The tooltip computes on screen coordinates, which are arbitrary
  doubles, and its step of 10% is rounded.  Its numbers are the kernel's
  binary64 floats ([Double], [Tooltip]), with NaN, the infinities and
  the rounding of every operation. *)

From Stdlib Require Import QArith Qcanon Qcabs Qabs Qpower Qround ZArith Bool.
From Stdlib Require Import List String.
From Stdlib Require Import DecimalString Lia Lqa Floats.
From Stdlib Require DecimalZ DecimalPos.
Import ListNotations.

Open Scope Qc_scope.

(** A numeric literal of the script. *)
Notation "' q" := (Q2Qc q%Q) (at level 1, q at level 0, format "' q") : Qc_scope.

(** ** JavaScript primitives used by the script *)

Module JS.

(** [a > b] and [a < b] on numbers. *)
Definition gt (a b : Qc) : bool := negb (Qle_bool a b).
Definition lt (a b : Qc) : bool := negb (Qle_bool b a).

(** [Math.floor], [Math.round] (round half up) and [Math.abs]. *)
Definition floor (v : Qc) : Z := Qfloor v.
Definition round (v : Qc) : Z := Qfloor (v + '0.5).
Definition abs (v : Qc) : Qc := Qcabs v.

(** String conversion of an integral number, as performed by [+] with a
    string operand: decimal digits, a leading minus sign when negative. *)
Definition to_string (z : Z) : string := NilZero.string_of_int (Z.to_int z).

(** A count as a number. *)
Definition ofNat (n : nat) : Qc := Q2Qc (inject_Z (Z.of_nat n)).

End JS.

(** ** The renderer *)

Module Renderer.

Record OpacityStop := { opacity : Qc; ovalue : Qc }.

Record ColorStop := { cvalue : Qc; color : string; label : string }.

Record Symbol := { stype : string; scolor : string; outline : option unit }.

(** The two shapes of visual variable the script builds; the constructor
    stands for the object's [type] field. *)
Inductive VisualVariable :=
| Opacity (field : string) (stops : list OpacityStop) (showLegend : bool)
| Color (field : string) (legendTitle : string) (stops : list ColorStop).

Record t := { rtype : string; symbol : Symbol;
              visualVariables : list VisualVariable }.

Definition createRenderer (year : Qc) : t :=
  let opacityStops :=
    [ {| opacity := 1; ovalue := year |};
      {| opacity := 0; ovalue := year + 1 |} ] in
  {| rtype := "simple";
     symbol := {| stype := "simple-fill"; scolor := "rgb(0, 0, 0)";
                  outline := None |};
     visualVariables :=
       [ Opacity "CNSTRCT_YR" opacityStops false;
         Color "CNSTRCT_YR" "Titled:"
           [ {| cvalue := year; color := "#e7ed8a";
                label := "in " ++ JS.to_string (JS.floor year) |};
             {| cvalue := year - '10; color := "#eaed13";
                label := "in " ++ JS.to_string (JS.floor year - 10) |};
             {| cvalue := year - '20; color := "#007af4";
                label := "before " ++ JS.to_string (JS.floor year - 20) |} ]
       ] |}.

(** All opacity stops, resp. colour stops, of a renderer. *)
Definition opacityStopsOf (r : t) : list OpacityStop :=
  flat_map (fun v => match v with Opacity _ s _ => s | Color _ _ _ => [] end)
           (visualVariables r).

Definition colorStopsOf (r : t) : list ColorStop :=
  flat_map (fun v => match v with Color _ _ s => s | Opacity _ _ _ => [] end)
           (visualVariables r).

End Renderer.

(** ** The page: year label, slider thumb and layer renderer *)

Module Page.

(** [sliderValue.innerHTML], the slider's thumb value and
    [layer.renderer]. *)
Record t := { sliderValue : string; thumb : Qc;
              renderer : option Renderer.t }.

(** State when the script has run its set-up, just before [setYear(1871)]. *)
Definition initial : t :=
  {| sliderValue := ""; thumb := '1871; renderer := None |}.

Definition setYear (value : Qc) (p : t) : t :=
  {| sliderValue := JS.to_string (JS.floor value);
     thumb := value;
     renderer := Some (Renderer.createRenderer value) |}.

End Page.

(** ** The animation loop *)

Module Animation.

(** The closure variables of [animate]. *)
Record Closure := { animating : bool; value : Qc }.

(** What [frame] acts on besides its closure: the page, the number of
    outstanding [setTimeout]/[requestAnimationFrame] callbacks that will
    run [frame], and (a ghost log) the arguments of the [setYear] calls
    made so far, oldest first. *)
Record World := { page : Page.t; scheduled : nat; updates : list Qc }.

Definition state : Type := Closure * World.

Definition frame (c : Closure) (w : World) : state :=
  if negb (animating c) then (c, w)
  else
    let value := value c + '0.5 in
    let value := if JS.gt value '2017 then '1880 else value in
    ({| animating := animating c; value := value |},
     {| page := Page.setYear value (page w);
        scheduled := S (scheduled w);
        updates := updates w ++ [value] |}).

(** The closure as [animate] creates it. *)
Definition running (v : Qc) : Closure := {| animating := true; value := v |}.

(** [animate] runs [frame] once itself and hands back the handle; the
    handle's [remove] clears the flag. *)
Definition animate (startValue : Qc) (w : World) : state :=
  frame (running startValue) w.

Definition remove (c : Closure) : Closure :=
  {| animating := false; value := value c |}.

(** One scheduled callback comes due and runs [frame]. *)
Definition fire (s : state) : state :=
  match scheduled (snd s) with
  | O => s
  | S k => frame (fst s) {| page := page (snd s); scheduled := k;
                            updates := updates (snd s) |}
  end.

(** [n] successive executions of [frame]. *)
Fixpoint ticks (n : nat) (c : Closure) (w : World) : state :=
  match n with
  | O => (c, w)
  | S k => let (c', w') := frame c w in ticks k c' w'
  end.

Fixpoint fires (n : nat) (s : state) : state :=
  match n with
  | O => s
  | S k => fires k (fire s)
  end.

Definition idle : World :=
  {| page := Page.initial; scheduled := 0; updates := [] |}.

End Animation.

(** ** Doubles

    The tooltip computes on screen coordinates, which are arbitrary
    doubles; its numbers are the kernel's binary64 floats, with the
    IEEE operations the script's [+], [-], [*], [<] and [Math.abs]
    perform. *)

Module Double.

(** Neither NaN nor an infinity. *)
Definition SFfinite (f : spec_float) : bool :=
  match f with
  | S754_zero _ | S754_finite _ _ _ => true
  | S754_infinity _ | S754_nan => false
  end.

Definition finite (f : float) : bool := SFfinite (Prim2SF f).

(** The rational a finite double stands for. *)
Definition SFvalue (f : spec_float) : Q :=
  match f with
  | S754_finite s m e =>
      if s then (- (inject_Z (Z.pos m) * Qpower 2 e))%Q
      else (inject_Z (Z.pos m) * Qpower 2 e)%Q
  | _ => 0%Q
  end.

Definition value (f : float) : Q := SFvalue (Prim2SF f).

(** [Math.round(f)] converted to a string: the nearest integer, a half
    going up, in decimal digits.  (From [10^21] on JavaScript prints an
    exponent instead; no coordinate of a screen comes near.) *)
Definition round (f : float) : string :=
  match Prim2SF f with
  | S754_nan => "NaN"
  | S754_infinity s => if s then "-Infinity" else "Infinity"
  | _ => JS.to_string (Qfloor (value f + (1 # 2))%Q)
  end.

(** The double the script writes [0.1]. *)
Definition tenth : float := 0x1.999999999999ap-4%float.

(** A coordinate of at most [2^26] pixels in magnitude. *)
Definition small (f : float) : bool :=
  finite f && Qle_bool (Qabs (value f)) (Qpower 2 26).

End Double.

(** ** The tooltip *)

Module Tooltip.

(** A screen point, as the view hands it out: two finite doubles. *)
Record Point := { px : float; py : float;
                  onScreen : Double.finite px && Double.finite py = true }.

(** The closure variables of [createTooltip] ([x], [y], [targetX],
    [targetY], [visible]), the parts of the DOM it writes
    ([style.opacity], [style.transform], the text element's [innerHTML])
    and the number of outstanding [requestAnimationFrame(move)]
    callbacks. *)
Record t := { x : float; y : float; targetX : float; targetY : float;
              visible : bool; opacity : option Qc; transform : string;
              innerHTML : string; frames : nat }.

Definition createTooltip : t :=
  {| x := 0%float; y := 0%float; targetX := 0%float; targetY := 0%float;
     visible := false; opacity := None; transform := ""; innerHTML := "";
     frames := 0 |}.

Definition translate3d (x y : float) : string :=
  "translate3d(" ++ Double.round x ++ "px," ++ Double.round y ++ "px, 0)".

(** The test of [move], taken on the position already advanced. *)
Definition near (targetX targetY x y : float) : bool :=
  (PrimFloat.abs (targetX - x) <? 1)%float
  && (PrimFloat.abs (targetY - y) <? 1)%float.

Definition move (s : t) : t :=
  let x1 := (x s + (targetX s - x s) * Double.tenth)%float in
  let y1 := (y s + (targetY s - y s) * Double.tenth)%float in
  let stop := near (targetX s) (targetY s) x1 y1 in
  let x2 := if stop then targetX s else x1 in
  let y2 := if stop then targetY s else y1 in
  {| x := x2; y := y2; targetX := targetX s; targetY := targetY s;
     visible := visible s; opacity := opacity s;
     transform := translate3d x2 y2; innerHTML := innerHTML s;
     frames := if stop then frames s else S (frames s) |}.

(** The assignments of [show], up to its call of [move]. *)
Definition shown (point : Point) (text : string) (s : t) : t :=
  {| x := if negb (visible s) then px point else x s;
     y := if negb (visible s) then py point else y s;
     targetX := px point; targetY := py point;
     visible := true; opacity := Some 1; transform := transform s;
     innerHTML := text; frames := frames s |}.

Definition show (point : Point) (text : string) (s : t) : t :=
  move (shown point text s).

Definition hide (s : t) : t :=
  {| x := x s; y := y s; targetX := targetX s; targetY := targetY s;
     visible := false; opacity := Some 0; transform := transform s;
     innerHTML := innerHTML s; frames := frames s |}.

(** The tooltip with [k] frame callbacks outstanding. *)
Definition with_frames (k : nat) (s : t) : t :=
  {| x := x s; y := y s; targetX := targetX s; targetY := targetY s;
     visible := visible s; opacity := opacity s; transform := transform s;
     innerHTML := innerHTML s; frames := k |}.

(** One outstanding frame callback comes due and runs [move]. *)
Definition fire (s : t) : t :=
  match frames s with
  | O => s
  | S k => move (with_frames k s)
  end.

(** Lets frame callbacks come due until none is outstanding; the result
    carries the number of callbacks that ran. *)
Fixpoint settle (fuel : nat) (s : t) : option (nat * t) :=
  match frames s with
  | O => Some (O, s)
  | S _ =>
      match fuel with
      | O => None
      | S fuel' =>
          match settle fuel' (fire s) with
          | Some (k, r) => Some (S k, r)
          | None => None
          end
      end
  end.

(** The visible tooltip with the given position and target and no frame
    outstanding. *)
Definition at_ (x0 y0 tx ty : float) : t :=
  {| x := x0; y := y0; targetX := tx; targetY := ty; visible := true;
     opacity := Some 1; transform := translate3d x0 y0; innerHTML := "";
     frames := 0 |}.

(** The position one easing step further: 10% of the remaining distance
    closer to the target, as the doubles give it. *)
Definition stepX (s : t) : float :=
  (x s + (targetX s - x s) * Double.tenth)%float.
Definition stepY (s : t) : float :=
  (y s + (targetY s - y s) * Double.tenth)%float.

(** The step on one axis. *)
Definition ease (pos target : float) : float :=
  (pos + (target - pos) * Double.tenth)%float.

(** The distance left on an axis, as a rational number of pixels. *)
Definition gap (target pos : float) : Q :=
  (Double.value target - Double.value pos)%Q.

(** All four coordinates are at most [2^26] pixels in magnitude. *)
Definition inRange (s : t) : bool :=
  Double.small (x s) && Double.small (y s)
  && Double.small (targetX s) && Double.small (targetY s).

(** [(10/9)^n], and the distance from which [n] rounded steps of 10% leave
    less than a pixel to the next one: [2^-16] pays for the rounding. *)
Fixpoint reach (n : nat) : Q :=
  match n with
  | O => 1%Q
  | S k => (reach k * (10 # 9))%Q
  end.

Definition radius (n : nat) : Q := (reach n + (1 # 65536))%Q.

(** On an axis: the target is at most [2^26] pixels in magnitude and the
    position at most [2^27] and at most [radius n] pixels from it. *)
Definition inside (n : nat) (target pos : float) : bool :=
  Double.finite target && Double.finite pos
  && Qle_bool (Qabs (Double.value target)) (Qpower 2 26)
  && Qle_bool (Qabs (gap target pos)) (Qpower 2 27)
  && Qle_bool (Qabs (gap target pos)) (radius n).

Definition within (n : nat) (s : t) : bool :=
  inside n (targetX s) (x s) && inside n (targetY s) (y s).

End Tooltip.

(** ** Hover: hit test, highlight and tooltip *)

Module Hover.

(** An attribute value of a feature; numbers are integral years.
    [text] is its conversion by [+] with a string. *)
Inductive Value := Num (z : Z) | Str (s : string) | Null | Undefined.

Definition text (v : Value) : string :=
  match v with
  | Num z => JS.to_string z
  | Str s => s
  | Null => "null"
  | Undefined => "undefined"
  end.

(** Layers are compared by identity; [layer] is the feature layer the
    script creates. *)
Definition LayerId := nat.
Definition layer : LayerId := 0%nat.

Record Graphic := { glayer : LayerId; attributes : list (string * Value) }.

Definition getAttribute (g : Graphic) (name : string) : Value :=
  match find (fun kv => String.eqb (fst kv) name) (attributes g) with
  | Some kv => snd kv
  | None => Undefined
  end.

(** What [view.hitTest] resolves with, and what the script keeps of it. *)
Record HitTestResult := { results : list Graphic;
                          rawScreenPoint : Tooltip.Point }.

Record Hit := { graphic : Graphic; screenPoint : Tooltip.Point }.

(** A settled promise. *)
Inductive Settled (A : Type) :=
| Fulfilled (a : A)
| Rejected (reason : string).
Arguments Fulfilled {A} a.
Arguments Rejected {A} reason.

(** [p.then(f)]: a rejection passes through. *)
Definition andThen {A B : Type} (f : A -> B) (p : Settled A) : Settled B :=
  match p with
  | Fulfilled a => Fulfilled (f a)
  | Rejected e => Rejected e
  end.

(** The callback given to [promiseUtils.debounce], applied to the settled
    [view.hitTest(event)].  The debounced function is taken to settle as
    the call it lets through does. *)
Definition hitTest (p : Settled HitTestResult) : Settled (option Hit) :=
  andThen
    (fun hit =>
       match filter (fun g => Nat.eqb (glayer g) layer) (results hit) with
       | [] => None
       | g :: _ => Some {| graphic := g; screenPoint := rawScreenPoint hit |}
       end)
    p.

(** The layer view's highlights: each [highlight(graphic)] call returns a
    fresh handle, and the handle's [remove] takes its highlight away. *)
Record LayerView := { highlights : list (nat * Graphic); next : nat }.

Definition highlightGraphic (g : Graphic) (lv : LayerView) : nat * LayerView :=
  (next lv, {| highlights := highlights lv ++ [(next lv, g)];
               next := S (next lv) |}).

Definition removeHandle (h : nat) (lv : LayerView) : LayerView :=
  {| highlights := filter (fun e => negb (Nat.eqb (fst e) h)) (highlights lv);
     next := next lv |}.

(** The closure variables of [setupHoverTooltip] and the layer view. *)
Record t := { highlight : option nat; tooltip : Tooltip.t;
              layerview : LayerView }.

Definition setupHoverTooltip : t :=
  {| highlight := None; tooltip := Tooltip.createTooltip;
     layerview := {| highlights := []; next := 0 |} |}.

(** First half of the fulfilment handler: remove the current highlight. *)
Definition clearHighlight (s : t) : t :=
  match highlight s with
  | Some h => {| highlight := None; tooltip := tooltip s;
                 layerview := removeHandle h (layerview s) |}
  | None => s
  end.

(** Second half: highlight the hovered feature or hide the tooltip. *)
Definition applyHit (hit : option Hit) (s : t) : t :=
  match hit with
  | Some h =>
      let (handle, lv) := highlightGraphic (graphic h) (layerview s) in
      {| highlight := Some handle;
         tooltip := Tooltip.show (screenPoint h)
                      ("Titled in " ++ text (getAttribute (graphic h) "CNSTRCT_YR"))
                      (tooltip s);
         layerview := lv |}
  | None => {| highlight := highlight s; tooltip := Tooltip.hide (tooltip s);
               layerview := layerview s |}
  end.

Definition onHit (hit : option Hit) (s : t) : t :=
  applyHit hit (clearHighlight s).

(** The [pointer-move] listener once the hit test has settled:
    [.then(onHit, () => {})].  The second component is the promise the
    listener returns. *)
Definition pointerMove (p : Settled HitTestResult) (s : t) : t * Settled unit :=
  match hitTest p with
  | Fulfilled hit => (onHit hit s, Fulfilled tt)
  | Rejected _ => (s, Fulfilled tt)
  end.


(** The highlights are exactly the one the script holds a handle to. *)
Definition consistent (s : t) : Prop :=
  map fst (highlights (layerview s))
  = match highlight s with Some h => (h :: nil) | None => nil end.

End Hover.

(** ** The application: play button, slider drag and timers

    The script's top-level variable [animation], the play button's
    [toggled] class, every closure [animate] has created so far (each with
    the number of timer callbacks outstanding for its [frame]) and the
    page.  A handle is the index of its closure.  The slider widget is
    taken to hold the value [setYear] gives it, and a [setTimeout] with
    the [requestAnimationFrame] it leads to counts as one callback. *)

Module App.

Record t := { page : Page.t; animation : option nat; toggled : bool;
              closures : list (Animation.Closure * nat);
              updates : list Qc }.

(** After the script's set-up, which ends with [setYear(1871)]. *)
Definition initial : t :=
  {| page := Page.setYear '1871 Page.initial; animation := None;
     toggled := false; closures := nil; updates := nil |}.

Fixpoint setNth {A : Type} (i : nat) (a : A) (l : list A) : list A :=
  match l, i with
  | nil, _ => nil
  | _ :: rest, O => a :: rest
  | b :: rest, S j => b :: setNth j a rest
  end.

(** What a closure's [frame] sees of the application. *)
Definition world (a : t) (n : nat) : Animation.World :=
  {| Animation.page := page a; Animation.scheduled := n;
     Animation.updates := updates a |}.

Definition stopAnimation (a : t) : t :=
  match animation a with
  | None => a
  | Some i =>
      {| page := page a; animation := None; toggled := false;
         closures :=
           match nth_error (closures a) i with
           | Some (c, n) => setNth i (Animation.remove c, n) (closures a)
           | None => closures a
           end;
         updates := updates a |}
  end.

Definition startAnimation (a : t) : t :=
  let a1 := stopAnimation a in
  let started := Animation.animate (Page.thumb (page a1)) (world a1 0) in
  {| page := Animation.page (snd started);
     animation := Some (List.length (closures a1));
     toggled := true;
     closures := closures a1
                 ++ ((fst started, Animation.scheduled (snd started)) :: nil);
     updates := Animation.updates (snd started) |}.

(** The slider's [thumb-drag] listener. *)
Definition inputHandler (v : Qc) (a : t) : t :=
  let a1 := stopAnimation a in
  {| page := Page.setYear v (page a1); animation := animation a1;
     toggled := toggled a1; closures := closures a1;
     updates := updates a1 |}.

(** The play button's [click] listener. *)
Definition click (a : t) : t :=
  if toggled a then stopAnimation a else startAnimation a.

(** A timer callback of closure [i] comes due, if one is outstanding. *)
Definition timer (i : nat) (a : t) : t :=
  match nth_error (closures a) i with
  | None => a
  | Some (c, n) =>
      let fired := Animation.fire (c, world a n) in
      {| page := Animation.page (snd fired); animation := animation a;
         toggled := toggled a;
         closures := setNth i (fst fired, Animation.scheduled (snd fired))
                            (closures a);
         updates := Animation.updates (snd fired) |}
  end.

Inductive Event := Drag (v : Qc) | Click | Timer (i : nat).

Definition step (e : Event) (a : t) : t :=
  match e with
  | Drag v => inputHandler v a
  | Click => click a
  | Timer i => timer i a
  end.

(** The events in the order they happen. *)
Fixpoint run (es : list Event) (a : t) : t :=
  match es with
  | nil => a
  | e :: rest => run rest (step e a)
  end.

(** The value [frame] stores next. *)
Definition nextValue (v : Qc) : Qc :=
  if JS.gt (v + '0.5) '2017 then '1880 else v + '0.5.

(** What holds of every state the events can lead to: the button is
    toggled exactly when [animation] is set; a closure is animating
    exactly when [animation] is its handle, and then it tracks the
    slider's value and has one callback outstanding; a stopped closure
    has at most one. *)
Definition wf (a : t) : Prop :=
  (toggled a = true <-> animation a <> None)
  /\ (forall i, animation a = Some i -> (i < List.length (closures a))%nat)
  /\ (forall i c n,
         nth_error (closures a) i = Some (c, n) ->
         (Animation.animating c = true <-> animation a = Some i)
         /\ (Animation.animating c = true ->
             n = 1%nat /\ Animation.value c = Page.thumb (page a))
         /\ (n <= 1)%nat).

End App.

(** ** The tooltip and the hover listener over time *)

Module Session.

(** What can happen to the tooltip: a call of [show], a call of [hide],
    or an outstanding frame callback coming due. *)
Inductive Op := Show (point : Tooltip.Point) (text : string) | Hide | Frame.

Definition apply (o : Op) (s : Tooltip.t) : Tooltip.t :=
  match o with
  | Show point text => Tooltip.show point text s
  | Hide => Tooltip.hide s
  | Frame => Tooltip.fire s
  end.

Fixpoint run (ops : list Op) (s : Tooltip.t) : Tooltip.t :=
  match ops with
  | nil => s
  | o :: rest => run rest (apply o s)
  end.

(** The transform on the element is the one of the tracked position. *)
Definition rendered (s : Tooltip.t) : Prop :=
  Tooltip.transform s = Tooltip.translate3d (Tooltip.x s) (Tooltip.y s).

(** What can happen to the hover state: a hit test of a pointer move
    settles, or a frame callback of the tooltip comes due. *)
Inductive Event := Pointer (p : Hover.Settled Hover.HitTestResult) | Tick.

Definition step (e : Event) (s : Hover.t) : Hover.t :=
  match e with
  | Pointer p => fst (Hover.pointerMove p s)
  | Tick => {| Hover.highlight := Hover.highlight s;
               Hover.tooltip := Tooltip.fire (Hover.tooltip s);
               Hover.layerview := Hover.layerview s |}
  end.

Fixpoint hover (es : list Event) (s : Hover.t) : Hover.t :=
  match es with
  | nil => s
  | e :: rest => hover rest (step e s)
  end.

Definition fulfilled {A : Type} (p : Hover.Settled A) : bool :=
  match p with
  | Hover.Fulfilled _ => true
  | Hover.Rejected _ => false
  end.

(** The tooltip tells of the highlighted feature: with no highlight it is
    hidden; with one it is visible and its text is the one made from that
    feature; there is never more than one. *)
Definition telling (s : Hover.t) : Prop :=
  match Hover.highlights (Hover.layerview s) with
  | nil => Tooltip.visible (Hover.tooltip s) = false
  | (_, g) :: nil =>
      Tooltip.visible (Hover.tooltip s) = true
      /\ Tooltip.innerHTML (Hover.tooltip s)
         = ("Titled in "
            ++ Hover.text (Hover.getAttribute g "CNSTRCT_YR"))%string
  | _ :: _ :: _ => False
  end.

End Session.

(** ** The same arithmetic on binary64

    The value update of [frame] written on IEEE doubles, to compare the
    rational model of the years with. *)

Module Binary64.

Definition nextValue (v : float) : float :=
  let v := (v + 0.5)%float in
  if (2017 <? v)%float then 1880%float else v.

(** The rational a finite double stands for. *)
Definition toQc (f : float) : option Qc :=
  match Prim2SF f with
  | S754_zero _ => Some (Q2Qc 0)
  | S754_finite s m e =>
      let mag := (inject_Z (Z.pos m) * Qpower 2 e)%Q in
      Some (Q2Qc (if s then (- mag)%Q else mag))
  | _ => None
  end.

(** The double [k / 2] and the number [k / 2]. *)
Definition half (k : Z) : float := (of_uint63 (Uint63.of_Z k) / 2)%float.
Definition halfQc (k : Z) : Qc := Q2Qc (k # 2).

(** Do the double and the rational update agree at [k / 2]? *)
Definition agrees (k : Z) : bool :=
  match toQc (half k), toQc (nextValue (half k)) with
  | Some a, Some b =>
      Qeq_bool a (halfQc k)
      && Qeq_bool b (Animation.value
                       (fst (Animation.frame (Animation.running (halfQc k))
                                             Animation.idle)))
  | _, _ => false
  end.

End Binary64.

(** * Properties *)

(** ** Arithmetic on numbers *)

(** Goals on [Qc] are sent to [lra] through the underlying rationals. *)
Ltac qc_unfold :=
  unfold JS.ofNat, JS.abs, Qcle, Qclt, Qcminus, Qcplus, Qcopp,
         Qcmult, Q2Qc in *;
  cbn [this Qcabs] in *.

Ltac qc_lra :=
  try apply Qc_is_canon;
  qc_unfold; rewrite ?Qred_correct in *; lra.

Lemma js_gt_true (a b : Qc) : JS.gt a b = true <-> b < a.
Proof.
  unfold JS.gt. rewrite negb_true_iff.
  destruct (Qle_bool a b) eqn:E.
  - apply Qle_bool_iff in E. split; [discriminate | intro H; exfalso; qc_lra].
  - split; [intros _ | reflexivity].
    destruct (Qlt_le_dec b a) as [L | L]; [exact L |].
    apply Qle_bool_iff in L. congruence.
Qed.

Lemma js_gt_false (a b : Qc) : JS.gt a b = false <-> a <= b.
Proof.
  unfold JS.gt. rewrite negb_false_iff. apply Qle_bool_iff.
Qed.

Lemma js_lt_true (a b : Qc) : JS.lt a b = true <-> a < b.
Proof. exact (js_gt_true b a). Qed.

Lemma js_lt_false (a b : Qc) : JS.lt a b = false <-> b <= a.
Proof. exact (js_gt_false b a). Qed.

(** The test [Math.abs(d) < 1]. *)
Lemma js_abs_lt_1 (d : Qc) : JS.lt (JS.abs d) 1 = true <-> '(-1) < d /\ d < 1.
Proof.
  rewrite js_lt_true. qc_unfold.
  rewrite Qabs_Qlt_condition. rewrite ?Qred_correct. split; intro H; lra.
Qed.

Lemma ofNat_0 : JS.ofNat 0 = 0.
Proof. apply Qc_is_canon. reflexivity. Qed.

Lemma ofNat_S (n : nat) : JS.ofNat (S n) = JS.ofNat n + 1.
Proof.
  apply Qc_is_canon. qc_unfold. rewrite ?Qred_correct.
  rewrite Nat2Z.inj_succ. unfold Z.succ. rewrite inject_Z_plus.
  change (inject_Z 1) with 1%Q. ring.
Qed.

Lemma ofNat_nonneg (n : nat) : 0 <= JS.ofNat n.
Proof.
  assert (0 <= inject_Z (Z.of_nat n))%Q.
  { change 0%Q with (inject_Z 0). rewrite <- Zle_Qle. lia. }
  qc_lra.
Qed.

(** ** Animation loop *)

Section AnimationFacts.
Import Animation.

Lemma frame_running_value (v : Qc) (w : World) :
  value (fst (frame (running v) w))
  = if JS.gt (v + '0.5) '2017 then '1880 else v + '0.5.
Proof. reflexivity. Qed.

Lemma frame_step (v : Qc) (w : World) :
  v + '0.5 <= '2017 -> value (fst (frame (running v) w)) = v + '0.5.
Proof.
  intro H. rewrite frame_running_value.
  apply js_gt_false in H. now rewrite H.
Qed.

Lemma frame_wrap (v : Qc) (w : World) :
  '2017 < v + '0.5 -> value (fst (frame (running v) w)) = '1880.
Proof.
  intro H. rewrite frame_running_value.
  apply js_gt_true in H. now rewrite H.
Qed.

Lemma ticks_S (n : nat) (v : Qc) (w : World) :
  ticks (S n) (running v) w
  = ticks n (running (value (fst (frame (running v) w))))
            (snd (frame (running v) w)).
Proof. reflexivity. Qed.

(** No wrap happens when even the last sum stays at or below 2017. *)
Lemma ticks_linear (n : nat) :
  forall (v : Qc) (w : World),
    v + '0.5 * JS.ofNat n <= '2017 ->
    value (fst (ticks n (running v) w)) = v + '0.5 * JS.ofNat n.
Proof.
  induction n as [| n IH]; intros v w H.
  - rewrite ofNat_0. change (v = v + '0.5 * 0). qc_lra.
  - rewrite ticks_S.
    pose proof (ofNat_S n) as E. pose proof (ofNat_nonneg n) as P.
    rewrite E in *.
    rewrite (frame_step v w) by qc_lra.
    rewrite IH by qc_lra. qc_lra.
Qed.

Lemma frame_le_2017 (v : Qc) (w : World) :
  value (fst (frame (running v) w)) <= '2017.
Proof.
  rewrite frame_running_value.
  destruct (JS.gt (v + '0.5) '2017) eqn:E.
  - qc_lra.
  - now apply js_gt_false in E.
Qed.

Lemma frame_ge_1880 (v : Qc) (w : World) :
  '1879.5 <= v -> '1880 <= value (fst (frame (running v) w)).
Proof.
  intro H. rewrite frame_running_value.
  destruct (JS.gt (v + '0.5) '2017); qc_lra.
Qed.

Lemma ticks_range (n : nat) :
  forall (v : Qc) (w : World),
    '1880 <= v <= '2017 ->
    '1880 <= value (fst (ticks n (running v) w)) <= '2017.
Proof.
  induction n as [| n IH]; intros v w H.
  - exact H.
  - rewrite ticks_S. apply IH. split.
    + apply frame_ge_1880. qc_lra.
    + apply frame_le_2017.
Qed.

Lemma ticks_le_2017 (n : nat) :
  forall (v : Qc) (w : World),
    v <= '2017 -> value (fst (ticks n (running v) w)) <= '2017.
Proof.
  induction n as [| n IH]; intros v w H.
  - exact H.
  - rewrite ticks_S. apply IH, frame_le_2017.
Qed.

(** The loop as the scheduler drives it: after [animate], each callback
    that comes due is one more tick.  The page and the updates are those
    of [ticks]; only the count of outstanding callbacks differs. *)
Lemma fires_are_ticks (n : nat) :
  forall (v : Qc) (w1 w2 : World),
    page w1 = page w2 -> updates w1 = updates w2 ->
    (0 < scheduled w1)%nat ->
    fst (fires n (running v, w1)) = fst (ticks n (running v) w2)
    /\ page (snd (fires n (running v, w1)))
       = page (snd (ticks n (running v) w2))
    /\ updates (snd (fires n (running v, w1)))
       = updates (snd (ticks n (running v) w2)).
Proof.
  induction n as [| n IH]; intros v w1 w2 Hp Hu Hs.
  - cbn. auto.
  - rewrite ticks_S. cbn [fires]. unfold fire. cbn [fst snd].
    destruct (scheduled w1) as [| k] eqn:E; [lia |].
    change (frame (running v)
                  {| page := page w1; scheduled := k; updates := updates w1 |})
      with (running (value (fst (frame (running v) w1))),
            {| page := Page.setYear (value (fst (frame (running v) w1)))
                                    (page w1);
               scheduled := S k;
               updates := updates w1
                          ++ (value (fst (frame (running v) w1)) :: nil) |}).
    apply IH; cbn; try lia.
    + reflexivity.
    + now rewrite Hu.
Qed.

Lemma animate_then_fires (n : nat) (v : Qc) (w : World) :
  fst (fires n (animate v w)) = fst (ticks (S n) (running v) w)
  /\ updates (snd (fires n (animate v w)))
     = updates (snd (ticks (S n) (running v) w)).
Proof.
  rewrite ticks_S.
  destruct (fires_are_ticks n (value (fst (frame (running v) w)))
              (snd (animate v w)) (snd (frame (running v) w)))
    as (Hc & _ & Hu); try reflexivity.
  - cbn. lia.
  - split; [exact Hc | exact Hu].
Qed.

Lemma frame_stopped (c : Closure) (w : World) :
  animating c = false -> frame c w = (c, w).
Proof. intro H. unfold frame. now rewrite H. Qed.

Lemma fire_stopped (s : state) :
  animating (fst s) = false ->
  fst (fire s) = fst s /\ updates (snd (fire s)) = updates (snd s)
  /\ page (snd (fire s)) = page (snd s)
  /\ scheduled (snd (fire s)) = pred (scheduled (snd s)).
Proof.
  intro H. unfold fire. destruct (scheduled (snd s)) as [| k] eqn:E.
  - rewrite E. auto.
  - rewrite frame_stopped by exact H. cbn. auto.
Qed.

Lemma fires_stopped (n : nat) :
  forall s : state,
    animating (fst s) = false ->
    fst (fires n s) = fst s /\ updates (snd (fires n s)) = updates (snd s)
    /\ page (snd (fires n s)) = page (snd s).
Proof.
  induction n as [| n IH]; intros s H.
  - cbn. auto.
  - destruct (fire_stopped s H) as (Hc & Hu & Hp & _).
    cbn [fires]. destruct (IH (fire s)) as (Hc' & Hu' & Hp').
    + now rewrite Hc.
    + rewrite Hc', Hu', Hp'. auto.
Qed.

(** C1.  A tick adds exactly 0.5 to the tracked value and, when the sum
    exceeds 2017, stores 1880 instead.  So [n] ticks from [v0] give
    [v0 + 0.5 n] when none of the sums [v0 + 0.5 k], [1 <= k <= n],
    exceeds 2017; and from 2016.5 the first tick gives 2017 and the
    second 1880. *)
Theorem animate_tick_arithmetic :
  (forall v w, v + '0.5 <= '2017 ->
               value (fst (frame (running v) w)) = v + '0.5)
  /\ (forall v w, '2017 < v + '0.5 ->
                  value (fst (frame (running v) w)) = '1880)
  /\ (forall v0 n w,
         (forall k, (1 <= k <= n)%nat -> v0 + '0.5 * JS.ofNat k <= '2017) ->
         value (fst (ticks n (running v0) w)) = v0 + '0.5 * JS.ofNat n)
  /\ (forall w, value (fst (ticks 1 (running '2016.5) w)) = '2017
                /\ value (fst (ticks 2 (running '2016.5) w)) = '1880).
Proof.
  split; [exact frame_step |].
  split; [exact frame_wrap |].
  split.
  - intros v0 [| n] w H.
    + rewrite ofNat_0. change (v0 = v0 + '0.5 * 0). qc_lra.
    + apply ticks_linear, H. lia.
  - intro w. split; apply Qc_is_canon; reflexivity.
Qed.

Lemma animate_tick_arithmetic_witness :
  (forall k, (1 <= k <= 3)%nat -> '2000 + '0.5 * JS.ofNat k <= '2017)
  /\ value (fst (ticks 3 (running '2000) idle)) = '2000 + '0.5 * JS.ofNat 3.
Proof.
  assert (H : forall k, (1 <= k <= 3)%nat ->
                        '2000 + '0.5 * JS.ofNat k <= '2017).
  { intros k Hk.
    assert (k = 1 \/ k = 2 \/ k = 3)%nat as [-> | [-> | ->]] by lia;
      vm_compute; discriminate. }
  split; [exact H |].
  exact (proj1 (proj2 (proj2 animate_tick_arithmetic)) '2000 3%nat idle H).
Defined.

(** C10.  After every executed tick the tracked value is at most 2017.  A
    tick from a value above 2017 stores 1880, and from a start value of
    at least 1879.5 the value lies in [1880, 2017] after any positive
    number of ticks. *)
Theorem animation_value_upper_bound :
  (forall v n w, value (fst (ticks (S n) (running v) w)) <= '2017)
  /\ (forall v w, '2017 < v -> value (fst (frame (running v) w)) = '1880)
  /\ (forall v n w, '1879.5 <= v ->
        '1880 <= value (fst (ticks (S n) (running v) w)) <= '2017).
Proof.
  split; [| split].
  - intros v n w. rewrite ticks_S. apply ticks_le_2017, frame_le_2017.
  - intros v w H. apply frame_wrap. qc_lra.
  - intros v n w H. rewrite ticks_S. apply ticks_range. split.
    + now apply frame_ge_1880.
    + apply frame_le_2017.
Qed.

Lemma animation_value_upper_bound_witness :
  ('2017 < '2022 /\ value (fst (frame (running '2022) idle)) = '1880)
  /\ ('1879.5 <= '1879.5
      /\ '1880 <= value (fst (ticks 4 (running '1879.5) idle)) <= '2017).
Proof.
  assert (H1 : '2017 < '2022) by (vm_compute; reflexivity).
  assert (H2 : '1879.5 <= '1879.5) by (vm_compute; discriminate).
  split; split.
  - exact H1.
  - exact (proj1 (proj2 animation_value_upper_bound) '2022 idle H1).
  - exact H2.
  - exact (proj2 (proj2 animation_value_upper_bound) '1879.5 3%nat idle H2).
Defined.

(** C6.  Once [remove] has cleared the flag, a tick that runs is a no-op:
    it calls no update and changes neither the value nor the page, however
    many scheduled ticks come due.  After [animate] directly followed by
    [remove], no further update is made at all, which is within the bound
    of one. *)
Theorem stop_cancels_scheduled_ticks :
  (forall c w, animating (remove c) = false
               /\ frame (remove c) w = (remove c, w))
  /\ (forall n c w,
        fst (fires n (remove c, w)) = remove c
        /\ updates (snd (fires n (remove c, w))) = updates w
        /\ page (snd (fires n (remove c, w))) = page w)
  /\ (forall n startValue w,
        let started := animate startValue w in
        let final := fires n (remove (fst started), snd started) in
        updates (snd final) = updates (snd started)
        /\ (List.length (updates (snd final))
            <= List.length (updates (snd started)) + 1)%nat
        /\ value (fst final) = value (fst started)
        /\ page (snd final) = page (snd started)).
Proof.
  split; [| split].
  - intros c w. split; [reflexivity | now apply frame_stopped].
  - intros n c w. exact (fires_stopped n (remove c, w) eq_refl).
  - intros n startValue w started final.
    destruct (fires_stopped n (remove (fst started), snd started) eq_refl)
      as (Hc & Hu & Hp).
    fold final in Hc, Hu, Hp. cbn [fst snd] in Hc, Hu, Hp.
    rewrite Hu, Hc, Hp. repeat split; [lia].
Qed.

End AnimationFacts.

(** ** Renderer *)

Section RendererFacts.
Import Renderer.

(** C3.  For every year the renderer has exactly two opacity stops,
    opacity 1 at the year and opacity 0 at the year plus one, held by its
    only opacity variable. *)
Theorem createRenderer_opacity_ramp (year : Qc) :
  opacityStopsOf (createRenderer year)
  = [ {| opacity := 1; ovalue := year |};
      {| opacity := 0; ovalue := year + 1 |} ]
  /\ List.length (opacityStopsOf (createRenderer year)) = 2%nat
  /\ filter (fun v => match v with Opacity _ _ _ => true | _ => false end)
            (visualVariables (createRenderer year))
     = (Opacity "CNSTRCT_YR"
          [ {| opacity := 1; ovalue := year |};
            {| opacity := 0; ovalue := year + 1 |} ] false :: nil).
Proof. repeat split. Qed.

Lemma floor_spec (v : Qc) :
  (inject_Z (JS.floor v) <= v)%Q /\ (v < inject_Z (JS.floor v + 1))%Q.
Proof. split; [apply Qfloor_le | apply Qlt_floor]. Qed.

(** C4.  For every year the renderer has exactly three colour stops, at
    the year, ten below and twenty below, in that strictly decreasing
    order, with the three fixed colours and with labels built from the
    floor of the year; [setYear] installs the renderer computed from its
    argument whatever the page held before. *)
Theorem createRenderer_color_ramp (year : Qc) :
  colorStopsOf (createRenderer year)
  = [ {| cvalue := year; color := "#e7ed8a";
         label := "in " ++ JS.to_string (JS.floor year) |};
      {| cvalue := year - '10; color := "#eaed13";
         label := "in " ++ JS.to_string (JS.floor year - 10) |};
      {| cvalue := year - '20; color := "#007af4";
         label := "before " ++ JS.to_string (JS.floor year - 20) |} ]
  /\ (year - '20 < year - '10 /\ year - '10 < year)
  /\ ((inject_Z (JS.floor year) <= year)%Q
      /\ (year < inject_Z (JS.floor year + 1))%Q)
  /\ (forall p : Page.t,
        Page.renderer (Page.setYear year p) = Some (createRenderer year))
  /\ map label (colorStopsOf (createRenderer '1871.5))
     = [ "in 1871"; "in 1861"; "before 1851" ]%string.
Proof.
  split; [reflexivity |].
  split; [split; qc_lra |].
  split; [apply floor_spec |].
  split; [reflexivity |].
  vm_compute. reflexivity.
Qed.

End RendererFacts.

(** ** Doubles *)

Section DoubleFacts.

Lemma finite_cases (f : float) :
  Double.finite f = true ->
  (exists s, Prim2SF f = S754_zero s)
  \/ (exists s m e, Prim2SF f = S754_finite s m e).
Proof.
  unfold Double.finite. destruct (Prim2SF f) as [s | s | | s m e];
    try discriminate; intros _; [left | right]; eauto.
Qed.

Lemma tenth_spec :
  Prim2SF Double.tenth = S754_finite false 7205759403792794 (-56).
Proof. vm_compute. reflexivity. Qed.

Lemma one_spec : Prim2SF 1%float = S754_finite false 4503599627370496 (-52).
Proof. vm_compute. reflexivity. Qed.

Lemma sub_self (s : bool) (m : positive) (e : Z) :
  SF64sub (S754_finite s m e) (S754_finite s m e) = S754_zero false.
Proof.
  unfold SF64sub, SFsub. cbv zeta. now rewrite Z.sub_diag.
Qed.

(** At rest on a finite target the step stays within the pixel: the gap
    computed is a zero. *)
Lemma rest_within (p : float) :
  Double.finite p = true ->
  (PrimFloat.abs (p - (p + (p - p) * Double.tenth)) <? 1)%float = true.
Proof.
  intro F.
  rewrite ltb_spec, abs_spec, sub_spec, add_spec, mul_spec, sub_spec.
  rewrite tenth_spec, one_spec.
  destruct (finite_cases p F) as [[s E] | (s & m & e & E)]; rewrite E.
  - destruct s; reflexivity.
  - rewrite sub_self.
    change (SF64mul (S754_zero false)
                    (S754_finite false 7205759403792794 (-56)))
      with (S754_zero false).
    change (SF64add (S754_finite s m e) (S754_zero false))
      with (S754_finite s m e).
    rewrite sub_self. reflexivity.
Qed.

End DoubleFacts.

(** ** Rounding of doubles

    The operations of the step round to nearest.  For results below
    [2^29] in magnitude the result is finite and the rounding error at
    most [2^-22]: the unit in the last place is at most [2^-24] there. *)

Section Rounding.
Import Double.
Local Open Scope Q_scope.

(** Powers of two *)
Lemma pow2_pos (e : Z) : 0 < 2 ^ e.
Proof. apply Qpower_0_lt. reflexivity. Qed.

Lemma pow2_add (a b : Z) : 2 ^ (a + b) == 2 ^ a * 2 ^ b.
Proof. apply Qpower_plus. discriminate. Qed.

Lemma pow2_le (a b : Z) : (a <= b)%Z -> 2 ^ a <= 2 ^ b.
Proof. intro H. apply Qpower_le_compat_l; [exact H | discriminate]. Qed.

Lemma pow2_lt (a b : Z) : (a < b)%Z -> 2 ^ a < 2 ^ b.
Proof. intro H. apply Qpower_lt_compat_l; [exact H | reflexivity]. Qed.

Lemma pow2_Z (k : Z) : (0 <= k)%Z -> 2 ^ k == inject_Z (2 ^ k).
Proof. intro H. symmetry. apply (Zpower_Qpower 2 k H). Qed.

Lemma pow2_le_inv (a b : Z) : 2 ^ a < 2 ^ b -> (a < b)%Z.
Proof. intro H. apply (Qpower_lt_compat_l_inv 2); [exact H | reflexivity]. Qed.

(** The number of digits of a mantissa *)
Lemma digits_bounds (m : positive) :
  (2 ^ (Z.pos (digits2_pos m) - 1) <= Z.pos m < 2 ^ Z.pos (digits2_pos m))%Z.
Proof.
  induction m as [m IH | m IH |]; cbn [digits2_pos].
  - rewrite Pos2Z.inj_succ.
    replace (Z.succ (Z.pos (digits2_pos m)) - 1)%Z
      with (Z.succ (Z.pos (digits2_pos m) - 1))%Z by lia.
    rewrite !Z.pow_succ_r by lia. lia.
  - rewrite Pos2Z.inj_succ.
    replace (Z.succ (Z.pos (digits2_pos m)) - 1)%Z
      with (Z.succ (Z.pos (digits2_pos m) - 1))%Z by lia.
    rewrite !Z.pow_succ_r by lia. lia.
  - cbn. lia.
Qed.

(** Iterated shifts *)
Lemma iter_pos_nat {A : Type} (f : A -> A) (p : positive) (a : A) :
  iter_pos f p a = Nat.iter (Pos.to_nat p) f a.
Proof.
  revert a. induction p as [p IH | p IH |]; intro a; cbn [iter_pos].
  - rewrite !IH, Pos2Nat.inj_xI.
    replace (S (2 * Pos.to_nat p)) with (Pos.to_nat p + (Pos.to_nat p + 1))%nat by lia.
    rewrite !Nat.iter_add. reflexivity.
  - rewrite !IH, Pos2Nat.inj_xO.
    replace (2 * Pos.to_nat p)%nat with (Pos.to_nat p + Pos.to_nat p)%nat by lia.
    rewrite Nat.iter_add. reflexivity.
  - reflexivity.
Qed.

Lemma shr_1_m (r : shr_record) :
  (0 <= shr_m r)%Z -> shr_m (shr_1 r) = (shr_m r / 2)%Z.
Proof.
  destruct r as [m rb sb]. cbn [shr_m]. intro H.
  destruct m as [| p | p]; [reflexivity | | lia].
  destruct p as [p | p |]; cbn [shr_1 shr_m].
  - rewrite Pos2Z.inj_xI. apply Z.div_unique with 1%Z; lia.
  - rewrite Pos2Z.inj_xO. apply Z.div_unique with 0%Z; lia.
  - reflexivity.
Qed.

Lemma shr_iter_m (k : nat) (r : shr_record) :
  (0 <= shr_m r)%Z ->
  shr_m (Nat.iter k shr_1 r) = (shr_m r / 2 ^ Z.of_nat k)%Z.
Proof.
  intro H. induction k as [| k IH].
  - cbn. now rewrite Z.div_1_r.
  - rewrite Nat.iter_succ, shr_1_m.
    + rewrite IH, Nat2Z.inj_succ, Z.pow_succ_r by lia.
      rewrite Z.div_div by lia. f_equal. lia.
    + rewrite IH. apply Z.div_pos; lia.
Qed.

(** Shifting right by [n]: the mantissa is divided, the exponent raised. *)
Lemma shr_m_spec (m e n : Z) :
  (0 <= m)%Z ->
  let res := shr (shr_record_of_loc m loc_Exact) e n in
  ((n <= 0)%Z /\ shr_m (fst res) = m /\ snd res = e
   /\ loc_of_shr_record (fst res) = loc_Exact)
  \/ ((0 < n)%Z /\ shr_m (fst res) = (m / 2 ^ n)%Z /\ snd res = (e + n)%Z).
Proof.
  intros H res. subst res. destruct n as [| p | p]; cbn [shr fst snd].
  - left. repeat split; lia.
  - right. rewrite iter_pos_nat, shr_iter_m by exact H.
    rewrite positive_nat_Z. repeat split; lia.
  - left. repeat split; lia.
Qed.

Lemma rne_cases (m : Z) (l : location) :
  round_nearest_even m l = m \/ round_nearest_even m l = (m + 1)%Z.
Proof.
  destruct l as [| [| |]]; cbn; auto. destruct (Z.even m); auto.
Qed.

Lemma fexp_eq (e : Z) : fexp prec emax e = Z.max (e - 53) (-1074).
Proof. reflexivity. Qed.

Lemma inject_Z_nonneg (m : Z) : (0 <= m)%Z -> 0 <= inject_Z m.
Proof. intro H. change 0 with (inject_Z 0). now rewrite <- Zle_Qle. Qed.

Lemma div_pow2_Q (m n e : Z) :
  (0 <= m)%Z -> (0 < n)%Z ->
  0 <= inject_Z m * 2 ^ e - inject_Z (m / 2 ^ n) * 2 ^ (e + n)
  /\ inject_Z m * 2 ^ e - inject_Z (m / 2 ^ n) * 2 ^ (e + n) < 2 ^ (e + n).
Proof.
  intros Hm Hn.
  pose proof (Z.div_mod m (2 ^ n)) as D.
  assert (P2 : (0 < 2 ^ n)%Z) by (apply Z.pow_pos_nonneg; lia).
  specialize (D ltac:(lia)).
  pose proof (Z.mod_pos_bound m (2 ^ n) P2) as B.
  set (q := (m / 2 ^ n)%Z) in *. set (r := (m mod 2 ^ n)%Z) in *.
  assert (E : inject_Z m == inject_Z (2 ^ n) * inject_Z q + inject_Z r).
  { rewrite D, inject_Z_plus, inject_Z_mult. reflexivity. }
  assert (R0 : 0 <= inject_Z r) by (apply inject_Z_nonneg; lia).
  assert (R1 : inject_Z r < inject_Z (2 ^ n)) by (rewrite <- Zlt_Qlt; lia).
  rewrite pow2_add, (pow2_Z n) by lia. rewrite E.
  pose proof (pow2_pos e) as Pe.
  set (P := 2 ^ e) in *. set (N := inject_Z (2 ^ n)) in *.
  set (Q := inject_Z q) in *. set (R := inject_Z r) in *.
  clearbody P N Q R. split; nra.
Qed.

Lemma digits_exp_bound (m e K : Z) :
  (0 < m)%Z -> inject_Z m * 2 ^ e < 2 ^ K -> (Zdigits2 m + e <= K)%Z.
Proof.
  intros Hm H. destruct m as [| p | p]; try lia. cbn [Zdigits2].
  pose proof (digits_bounds p) as [L _].
  assert (L' : 2 ^ (Z.pos (digits2_pos p) - 1) <= inject_Z (Z.pos p)).
  { rewrite pow2_Z by lia. rewrite <- Zle_Qle. exact L. }
  assert (X : 2 ^ (Z.pos (digits2_pos p) - 1 + e) < 2 ^ K).
  { rewrite pow2_add. pose proof (pow2_pos e).
    set (A := 2 ^ (Z.pos (digits2_pos p) - 1)) in *. set (B := 2 ^ e) in *.
    set (C := inject_Z (Z.pos p)) in *. clearbody A B C. nra. }
  apply pow2_le_inv in X. lia.
Qed.

Lemma exp_bound (m e K : Z) :
  (0 < m)%Z -> inject_Z m * 2 ^ e < 2 ^ K -> (e < K)%Z.
Proof.
  intros Hm H. apply pow2_le_inv.
  assert (1 <= inject_Z m) by (change 1 with (inject_Z 1); rewrite <- Zle_Qle; lia).
  pose proof (pow2_pos e). set (B := 2 ^ e) in *. set (C := inject_Z m) in *.
  clearbody B C. nra.
Qed.

Lemma c24 : 2 ^ (-24) == 1 # 16777216. Proof. reflexivity. Qed.
Lemma c23 : 2 ^ (-23) == 1 # 8388608. Proof. reflexivity. Qed.
Lemma c22 : 2 ^ (-22) == 1 # 4194304. Proof. reflexivity. Qed.
Lemma c29 : 2 ^ 29 == 536870912. Proof. reflexivity. Qed.
Lemma c30 : 2 ^ 30 == 1073741824. Proof. reflexivity. Qed.

Lemma Qabs_le (x y : Q) : - y <= x -> x <= y -> Qabs x <= y.
Proof. intros. apply Qabs_Qle_condition. split; assumption. Qed.

Lemma Qabs_le_inv (x y : Q) : Qabs x <= y -> - y <= x /\ x <= y.
Proof. apply Qabs_Qle_condition. Qed.

(** One application of [shr_fexp] to an exact mantissa: the value moves
    down by less than the new unit, and the new exponent is the
    canonical one if anything was shifted. *)
Lemma shr_fexp_spec (m e : Z) :
  (0 <= m)%Z ->
  let res := shr_fexp prec emax m e loc_Exact in
  (0 <= shr_m (fst res))%Z
  /\ ((shr_m (fst res) = m /\ snd res = e
       /\ loc_of_shr_record (fst res) = loc_Exact)
      \/ (snd res = fexp prec emax (Zdigits2 m + e)
          /\ (e < snd res)%Z
          /\ 0 <= inject_Z m * 2 ^ e
                  - inject_Z (shr_m (fst res)) * 2 ^ snd res
          /\ inject_Z m * 2 ^ e - inject_Z (shr_m (fst res)) * 2 ^ snd res
             < 2 ^ snd res)).
Proof.
  intros Hm res. subst res. unfold shr_fexp.
  set (n := (fexp prec emax (Zdigits2 m + e) - e)%Z).
  pose proof (shr_m_spec m e n Hm) as S1. cbv zeta in S1.
  destruct (shr (shr_record_of_loc m loc_Exact) e n) as [r1 e1].
  cbn [fst snd] in *.
  destruct S1 as [(Hn & Em & Ee & El) | (Hn & Em & Ee)].
  - split; [lia |]. left. auto.
  - split; [rewrite Em; apply Z.div_pos; [lia | apply Z.pow_pos_nonneg; lia] |].
    right. rewrite Em, Ee.
    destruct (div_pow2_Q m n e Hm Hn) as [D0 D1].
    repeat split; try assumption; unfold n; lia.
Qed.

(** Rounding a magnitude below [2^29]: the result is finite and within
    [2^-22] of it. *)
Lemma round_aux_bound (s : bool) (m e : Z) :
  (0 <= m)%Z -> inject_Z m * 2 ^ e < 2 ^ 29 ->
  exists M,
    0 <= M
    /\ SFfinite (binary_round_aux prec emax s m e loc_Exact) = true
    /\ SFvalue (binary_round_aux prec emax s m e loc_Exact)
       == (if s then - M else M)
    /\ Qabs (M - inject_Z m * 2 ^ e) <= 2 ^ (-22).
Proof.
  intros Hm Hv. unfold binary_round_aux.
  pose proof (shr_fexp_spec m e Hm) as S1. cbv zeta in S1.
  destruct (shr_fexp prec emax m e loc_Exact) as [r1 e1].
  cbn [fst snd] in S1. destruct S1 as [P1 S1].
  set (m1 := round_nearest_even (shr_m r1) (loc_of_shr_record r1)).
  pose proof c24 as C24. pose proof c23 as C23. pose proof c22 as C22.
  pose proof c29 as C29. pose proof c30 as C30.
  assert (A1 : (0 <= m1)%Z
               /\ - 2 ^ (-24) <= inject_Z m1 * 2 ^ e1 - inject_Z m * 2 ^ e
               /\ inject_Z m1 * 2 ^ e1 - inject_Z m * 2 ^ e <= 2 ^ (-24)
               /\ (e1 < 29 \/ m1 = 0)%Z).
  { destruct S1 as [(Em & Ee & El) | (Ee & Hn & D0 & D1)].
    - subst m1. rewrite El, Em, Ee. cbn [round_nearest_even].
      split; [exact Hm |].
      split; [lra |]. split; [lra |].
      destruct (Z.eq_dec m 0) as [-> | N]; [now right | left].
      apply (exp_bound m); [lia | exact Hv].
    - assert (Eb : (e1 <= -24)%Z).
      { rewrite Ee, fexp_eq. rewrite Ee, fexp_eq in Hn.
        destruct (Z.eq_dec m 0) as [-> | N].
        - cbn [Zdigits2] in *. lia.
        - pose proof (digits_exp_bound m e 29 ltac:(lia) Hv). lia. }
      pose proof (pow2_le e1 (-24) Eb) as Pb.
      pose proof (pow2_pos e1) as Pp.
      assert (M1 : (m1 = shr_m r1 \/ m1 = shr_m r1 + 1)%Z) by apply rne_cases.
      split; [lia |].
      assert (I : inject_Z m1 == inject_Z (shr_m r1)
                  \/ inject_Z m1 == inject_Z (shr_m r1) + 1).
      { destruct M1 as [-> | ->]; [left; reflexivity | right].
        rewrite inject_Z_plus. reflexivity. }
      set (V := inject_Z m * 2 ^ e) in *.
      set (P := 2 ^ e1) in *. set (A := inject_Z (shr_m r1)) in *.
      set (B := inject_Z m1) in *. set (T := 2 ^ (-24)) in *.
      clearbody V P A B T.
      split; [| split; [| lia]]; destruct I as [I | I]; rewrite I; nra. }
  destruct A1 as (Q1 & L1 & U1 & X1).
  pose proof (shr_fexp_spec m1 e1 Q1) as S2. cbv zeta in S2.
  destruct (shr_fexp prec emax m1 e1 loc_Exact) as [r2 e2].
  cbn [fst snd] in S2. destruct S2 as [P2 S2].
  assert (A2 : - 2 ^ (-23) <= inject_Z (shr_m r2) * 2 ^ e2 - inject_Z m1 * 2 ^ e1
               /\ inject_Z (shr_m r2) * 2 ^ e2 - inject_Z m1 * 2 ^ e1 <= 0
               /\ (e2 < 30 \/ shr_m r2 = 0)%Z).
  { destruct S2 as [(Em & Ee & El) | (Ee & Hn & D0 & D1)].
    - rewrite Em, Ee. split; [lra |]. split; [lra |]. lia.
    - destruct (Z.eq_dec m1 0) as [Z1 | N1].
      + assert (Eb : (e2 <= -23)%Z).
        { rewrite Ee, fexp_eq. rewrite Ee, fexp_eq in Hn. rewrite Z1 in *.
          cbn [Zdigits2] in *. lia. }
        pose proof (pow2_le e2 (-23) Eb). split; [lra |]. split; [lra | lia].
      + assert (V1 : inject_Z m1 * 2 ^ e1 < 2 ^ 30) by lra.
        assert (Eb : (e2 <= -23)%Z).
        { rewrite Ee, fexp_eq.
          pose proof (digits_exp_bound m1 e1 30 ltac:(lia) V1). lia. }
        pose proof (pow2_le e2 (-23) Eb). split; [lra |]. split; [lra | lia]. }
  destruct A2 as (L2 & U2 & X2).
  exists (inject_Z (shr_m r2) * 2 ^ e2).
  pose proof (pow2_pos e2) as Pp2.
  assert (N2 : 0 <= inject_Z (shr_m r2)) by now apply inject_Z_nonneg.
  split; [nra |].
  assert (Fin : Qabs (inject_Z (shr_m r2) * 2 ^ e2 - inject_Z m * 2 ^ e)
                <= 2 ^ (-22)) by (apply Qabs_le; lra).
  destruct (shr_m r2) as [| p | p] eqn:E2; [| | lia].
  - cbn [SFfinite SFvalue]. split; [reflexivity |]. split; [| exact Fin].
    destruct s; ring.
  - assert (Le : (e2 <=? emax - prec)%Z = true).
    { apply Z.leb_le. change (emax - prec)%Z with 971%Z.
      destruct X2 as [X2 | X2]; [lia | discriminate]. }
    rewrite Le. cbn [SFfinite SFvalue]. split; [reflexivity |].
    split; [| exact Fin]. destruct s; reflexivity.
Qed.

Lemma small_zero (q : Q) : q == 0 -> Qabs q <= 2 ^ (-22).
Proof. intro E. pose proof c22. apply Qabs_le; lra. Qed.

(** Aligning two mantissas on the smaller exponent *)
Lemma iter_xO (d m : positive) :
  Z.pos (Pos.iter xO m d) = (Z.pos m * 2 ^ Z.pos d)%Z.
Proof.
  induction d as [| d IH] using Pos.peano_ind.
  - cbn [Pos.iter]. rewrite Pos2Z.inj_xO. lia.
  - rewrite Pos.iter_succ, Pos2Z.inj_xO, IH, Pos2Z.inj_succ, Z.pow_succ_r by lia.
    lia.
Qed.

Lemma shl_align_spec (m : positive) (e e' : Z) :
  inject_Z (Z.pos (fst (shl_align m e e'))) * 2 ^ snd (shl_align m e e')
  == inject_Z (Z.pos m) * 2 ^ e
  /\ (e' <= e -> snd (shl_align m e e') = e')%Z.
Proof.
  unfold shl_align. destruct (e' - e)%Z as [| d | d] eqn:D; cbn [fst snd].
  - split; [reflexivity | lia].
  - split; [reflexivity | lia].
  - split; [| reflexivity].
    rewrite iter_xO, inject_Z_mult, <- (pow2_Z (Z.pos d)) by lia.
    replace e with (Z.pos d + e')%Z by lia. rewrite (pow2_add (Z.pos d) e').
    ring.
Qed.

Lemma binary_round_bound (s : bool) (p : positive) (e : Z) :
  inject_Z (Z.pos p) * 2 ^ e < 2 ^ 29 ->
  exists M,
    0 <= M
    /\ SFfinite (binary_round prec emax s p e) = true
    /\ SFvalue (binary_round prec emax s p e) == (if s then - M else M)
    /\ Qabs (M - inject_Z (Z.pos p) * 2 ^ e) <= 2 ^ (-22).
Proof.
  intro H. unfold binary_round.
  destruct (shl_align_spec p e (fexp prec emax (Z.pos (digits2_pos p) + e)))
    as [V _].
  destruct (shl_align p e (fexp prec emax (Z.pos (digits2_pos p) + e)))
    as [mz ez]. cbn [fst snd] in V.
  destruct (round_aux_bound s (Z.pos mz) ez) as (M & M0 & F & E & B).
  - lia.
  - now rewrite V.
  - exists M. rewrite <- V. auto.
Qed.

Lemma binary_normalize_bound (z e : Z) :
  Qabs (inject_Z z * 2 ^ e) < 2 ^ 29 ->
  SFfinite (binary_normalize prec emax z e false) = true
  /\ Qabs (SFvalue (binary_normalize prec emax z e false) - inject_Z z * 2 ^ e)
     <= 2 ^ (-22).
Proof.
  intro H. pose proof (pow2_pos e) as Pe. pose proof c22 as C22.
  destruct z as [| p | p]; cbn [binary_normalize].
  - split; [reflexivity |]. cbn [SFvalue]. apply small_zero.
    unfold inject_Z. ring.
  - assert (P : 0 <= inject_Z (Z.pos p) * 2 ^ e).
    { pose proof (inject_Z_nonneg (Z.pos p) ltac:(lia)). nra. }
    rewrite Qabs_pos in H by exact P.
    destruct (binary_round_bound false p e H) as (M & M0 & F & E & B).
    split; [exact F |]. now rewrite E.
  - assert (I : inject_Z (Z.neg p) == - inject_Z (Z.pos p)).
    { reflexivity. }
    assert (P : 0 <= inject_Z (Z.pos p) * 2 ^ e).
    { pose proof (inject_Z_nonneg (Z.pos p) ltac:(lia)). nra. }
    assert (H' : inject_Z (Z.pos p) * 2 ^ e < 2 ^ 29).
    { rewrite I in H.
      setoid_replace (- inject_Z (Z.pos p) * 2 ^ e)
        with (- (inject_Z (Z.pos p) * 2 ^ e)) in H by ring.
      rewrite Qabs_opp, Qabs_pos in H by exact P. exact H. }
    destruct (binary_round_bound true p e H') as (M & M0 & F & E & B).
    split; [exact F |]. rewrite E, I.
    setoid_replace (- M - - inject_Z (Z.pos p) * 2 ^ e)
      with (- (M - inject_Z (Z.pos p) * 2 ^ e)) by ring.
    now rewrite Qabs_opp.
Qed.

Lemma inject_cond_Zopp (s : bool) (z : Z) :
  inject_Z (cond_Zopp s z) == (if s then - inject_Z z else inject_Z z).
Proof.
  destruct s; cbn [cond_Zopp]; [rewrite inject_Z_opp |]; reflexivity.
Qed.

Lemma SFvalue_finite (s : bool) (m : positive) (e : Z) :
  SFvalue (S754_finite s m e)
  == (if s then - inject_Z (Z.pos m) else inject_Z (Z.pos m)) * 2 ^ e.
Proof. cbn [SFvalue]. destruct s; ring. Qed.

Lemma aligned_sum (sx sy : bool) (mx my : positive) (ex ey : Z) (neg : bool) :
  let ez := Z.min ex ey in
  inject_Z (cond_Zopp sx (Z.pos (fst (shl_align mx ex ez)))
            + (if neg then - cond_Zopp sy (Z.pos (fst (shl_align my ey ez)))
               else cond_Zopp sy (Z.pos (fst (shl_align my ey ez)))))%Z
  * 2 ^ ez
  == SFvalue (S754_finite sx mx ex)
     + (if neg then - SFvalue (S754_finite sy my ey)
        else SFvalue (S754_finite sy my ey)).
Proof.
  intro ez.
  destruct (shl_align_spec mx ex ez) as [Vx Sx].
  destruct (shl_align_spec my ey ez) as [Vy Sy].
  rewrite Sx in Vx by (unfold ez; lia). rewrite Sy in Vy by (unfold ez; lia).
  cbn [SFvalue]. rewrite inject_Z_plus.
  set (ax := inject_Z (Z.pos (fst (shl_align mx ex ez)))) in *.
  set (ay := inject_Z (Z.pos (fst (shl_align my ey ez)))) in *.
  destruct neg; rewrite ?inject_Z_opp, !inject_cond_Zopp;
    fold ax ay; destruct sx, sy; lra.
Qed.

Lemma SFadd_bound (a b : spec_float) :
  SFfinite a = true -> SFfinite b = true ->
  Qabs (SFvalue a + SFvalue b) < 2 ^ 29 ->
  SFfinite (SF64add a b) = true
  /\ Qabs (SFvalue (SF64add a b) - (SFvalue a + SFvalue b)) <= 2 ^ (-22).
Proof.
  intros Fa Fb H. pose proof c22 as C22.
  assert (Z0 : forall q, Qabs (q - q) <= 2 ^ (-22)).
  { intro q. apply small_zero. ring. }
  destruct a as [sa | sa | | sa ma ea]; try discriminate;
    destruct b as [sb | sb | | sb mb eb]; try discriminate.
  - unfold SF64add, SFadd.
    destruct sa, sb; split; try reflexivity; apply small_zero;
      cbn [SFvalue]; ring.
  - unfold SF64add, SFadd. split; [reflexivity |].
    setoid_replace (SFvalue (S754_zero sa) + SFvalue (S754_finite sb mb eb))
      with (SFvalue (S754_finite sb mb eb)) by (cbn [SFvalue]; ring).
    apply Z0.
  - unfold SF64add, SFadd. split; [reflexivity |].
    setoid_replace (SFvalue (S754_finite sa ma ea) + SFvalue (S754_zero sb))
      with (SFvalue (S754_finite sa ma ea)) by (cbn [SFvalue]; ring).
    apply Z0.
  - unfold SF64add, SFadd. cbv zeta.
    pose proof (aligned_sum sa sb ma mb ea eb false) as S. cbv zeta in S.
    rewrite <- S in *. now apply binary_normalize_bound.
Qed.

Lemma SFsub_bound (a b : spec_float) :
  SFfinite a = true -> SFfinite b = true ->
  Qabs (SFvalue a - SFvalue b) < 2 ^ 29 ->
  SFfinite (SF64sub a b) = true
  /\ Qabs (SFvalue (SF64sub a b) - (SFvalue a - SFvalue b)) <= 2 ^ (-22).
Proof.
  intros Fa Fb H. pose proof c22 as C22.
  assert (Z0 : forall q r, q == r -> Qabs (q - r) <= 2 ^ (-22)).
  { intros q r E. apply small_zero. rewrite E. ring. }
  destruct a as [sa | sa | | sa ma ea]; try discriminate;
    destruct b as [sb | sb | | sb mb eb]; try discriminate.
  - unfold SF64sub, SFsub.
    destruct sa, sb; split; try reflexivity; apply small_zero;
      cbn [SFvalue]; ring.
  - unfold SF64sub, SFsub. split; [reflexivity |]. apply Z0.
    cbn [SFvalue]. destruct sb; cbn [negb]; ring.
  - unfold SF64sub, SFsub. split; [reflexivity |]. apply Z0.
    cbn [SFvalue]. ring.
  - unfold SF64sub, SFsub. cbv zeta.
    pose proof (aligned_sum sa sb ma mb ea eb true) as S. cbv zeta in S.
    change (fun x y => Z.sub x y) with Z.sub in *.
    assert (S' := S). clear S.
    rewrite <- Z.add_opp_r.
    setoid_replace (SFvalue (S754_finite sa ma ea) - SFvalue (S754_finite sb mb eb))
      with (SFvalue (S754_finite sa ma ea) + - SFvalue (S754_finite sb mb eb))
      in H by ring.
    setoid_replace (SFvalue (S754_finite sa ma ea) - SFvalue (S754_finite sb mb eb))
      with (SFvalue (S754_finite sa ma ea) + - SFvalue (S754_finite sb mb eb))
      by ring.
    rewrite <- S' in *. now apply binary_normalize_bound.
Qed.

Lemma SFmul_bound (a b : spec_float) :
  SFfinite a = true -> SFfinite b = true ->
  Qabs (SFvalue a * SFvalue b) < 2 ^ 29 ->
  SFfinite (SF64mul a b) = true
  /\ Qabs (SFvalue (SF64mul a b) - SFvalue a * SFvalue b) <= 2 ^ (-22).
Proof.
  intros Fa Fb H. pose proof c22 as C22.
  assert (Z0 : forall q, q == 0 -> Qabs (0 - q) <= 2 ^ (-22)).
  { intros q E. apply small_zero. rewrite E. ring. }
  destruct a as [sa | sa | | sa ma ea]; try discriminate;
    destruct b as [sb | sb | | sb mb eb]; try discriminate;
    unfold SF64mul, SFmul.
  - split; [reflexivity |]. apply Z0. cbn [SFvalue]. ring.
  - split; [reflexivity |]. apply Z0. cbn [SFvalue]. ring.
  - split; [reflexivity |]. apply Z0. cbn [SFvalue]. ring.
  - assert (V : SFvalue (S754_finite sa ma ea) * SFvalue (S754_finite sb mb eb)
                == (if xorb sa sb then - (inject_Z (Z.pos (ma * mb)) * 2 ^ (ea + eb))
                    else inject_Z (Z.pos (ma * mb)) * 2 ^ (ea + eb))).
    { cbn [SFvalue]. rewrite Pos2Z.inj_mul, inject_Z_mult.
      destruct sa, sb; cbn [xorb]; rewrite pow2_add; ring. }
    assert (P : 0 <= inject_Z (Z.pos (ma * mb)) * 2 ^ (ea + eb)).
    { pose proof (inject_Z_nonneg (Z.pos (ma * mb)) ltac:(lia)).
      pose proof (pow2_pos (ea + eb)). nra. }
    assert (H' : inject_Z (Z.pos (ma * mb)) * 2 ^ (ea + eb) < 2 ^ 29).
    { rewrite V in H. destruct (xorb sa sb).
      - rewrite Qabs_opp, Qabs_pos in H by exact P. exact H.
      - rewrite Qabs_pos in H by exact P. exact H. }
    destruct (round_aux_bound (xorb sa sb) (Z.pos (ma * mb)) (ea + eb)
                ltac:(lia) H') as (M & M0 & F & E & B).
    split; [exact F |]. rewrite E, V. destruct (xorb sa sb); [| exact B].
    setoid_replace (- M - - (inject_Z (Z.pos (ma * mb)) * 2 ^ (ea + eb)))
      with (- (M - inject_Z (Z.pos (ma * mb)) * 2 ^ (ea + eb))) by ring.
    now rewrite Qabs_opp.
Qed.

(** Comparing a magnitude with one *)
Lemma c52 : 2 ^ (-52) == 1 # 4503599627370496.
Proof. vm_compute. reflexivity. Qed.

Lemma Qabs_SFvalue (s : bool) (m : positive) (e : Z) :
  Qabs (SFvalue (S754_finite s m e)) == inject_Z (Z.pos m) * 2 ^ e.
Proof.
  assert (P : 0 <= inject_Z (Z.pos m) * 2 ^ e).
  { pose proof (inject_Z_nonneg (Z.pos m) ltac:(lia)).
    pose proof (pow2_pos e). nra. }
  cbn [SFvalue]. destruct s.
  - rewrite Qabs_opp. now apply Qabs_pos.
  - now apply Qabs_pos.
Qed.

Lemma compare_cont_lt (m q : positive) :
  match Pos.compare_cont Eq m q with Lt => true | _ => false end = true
  <-> (Z.pos m < Z.pos q)%Z.
Proof.
  change (Pos.compare_cont Eq m q) with (Z.pos m ?= Z.pos q)%Z.
  destruct (Z.compare_spec (Z.pos m) (Z.pos q)) as [E | L | G];
    split; try discriminate; try reflexivity; try (intros _; assumption); lia.
Qed.

Lemma lt_one_52 (m : positive) :
  inject_Z (Z.pos m) * 2 ^ (-52) < 1 <-> (Z.pos m < 4503599627370496)%Z.
Proof.
  rewrite c52. unfold Qlt, Qmult, inject_Z. cbn [Qnum Qden].
  rewrite Pos2Z.inj_mul, !Z.mul_1_r, !Z.mul_1_l. reflexivity.
Qed.

Lemma SFltb_same_exp (m q : positive) (e : Z) :
  SFltb (S754_finite false m e) (S754_finite false q e) = true
  <-> (Z.pos m < Z.pos q)%Z.
Proof.
  unfold SFltb, SFcompare. rewrite Z.compare_refl.
  apply compare_cont_lt.
Qed.

Lemma SFltb_exp_lt (m q : positive) (e f : Z) :
  (e < f)%Z ->
  SFltb (S754_finite false m e) (S754_finite false q f) = true.
Proof.
  intro L. unfold SFltb, SFcompare.
  apply Z.compare_lt_iff in L. rewrite L. reflexivity.
Qed.

Lemma SFltb_exp_gt (m q : positive) (e f : Z) :
  (f < e)%Z ->
  SFltb (S754_finite false m e) (S754_finite false q f) = false.
Proof.
  intro L. unfold SFltb, SFcompare.
  apply Z.compare_gt_iff in L. rewrite L. reflexivity.
Qed.

Lemma ltb_one_spec (w : spec_float) :
  valid_binary w = true ->
  SFltb (SFabs w) (S754_finite false 4503599627370496 (-52)) = true
  <-> SFfinite w = true /\ Qabs (SFvalue w) < 1.
Proof.
  intro V. destruct w as [s | s | | s m e].
  - cbn. split; [intros _; split; reflexivity | reflexivity].
  - cbn. split; [discriminate | intros [H _]; discriminate].
  - cbn. split; [discriminate | intros [H _]; discriminate].
  - rewrite Qabs_SFvalue. cbn [SFabs SFfinite] .
    unfold valid_binary, bounded, canonical_mantissa in V.
    apply andb_true_iff in V. destruct V as [C _].
    apply Z.eqb_eq in C. rewrite fexp_eq in C.
    pose proof (digits_bounds m) as [DL DU].
    pose proof (pow2_pos e) as Pe.
    destruct (Z.compare_spec e (-52)) as [E | L | G].
    + subst e. rewrite SFltb_same_exp, lt_one_52.
      split; [intro H; split; [reflexivity | exact H] | intros [_ H]; exact H].
    + rewrite SFltb_exp_lt by exact L.
      split; [intros _ | reflexivity]. split; [reflexivity |].
      assert (D : (Z.pos (digits2_pos m) <= 53)%Z) by lia.
      assert (M : inject_Z (Z.pos m) < 2 ^ 53).
      { rewrite pow2_Z by lia. rewrite <- Zlt_Qlt.
        eapply Z.lt_le_trans; [exact DU |].
        apply Z.pow_le_mono_r; lia. }
      assert (B : 2 ^ e <= 2 ^ (-53)) by (apply pow2_le; lia).
      assert (O : 2 ^ 53 * 2 ^ (-53) == 1) by reflexivity.
      pose proof (inject_Z_nonneg (Z.pos m) ltac:(lia)).
      set (a := inject_Z (Z.pos m)) in *. set (p := 2 ^ e) in *.
      set (c := 2 ^ 53) in *. set (d := 2 ^ (-53)) in *.
      clearbody a p c d. nra.
    + rewrite SFltb_exp_gt by exact G.
      split; [discriminate | intros [_ H]; exfalso].
      assert (D : (Z.pos (digits2_pos m) = 53)%Z) by lia.
      assert (M : 2 ^ 52 <= inject_Z (Z.pos m)).
      { rewrite pow2_Z by lia. rewrite <- Zle_Qle.
        rewrite D in DL. exact DL. }
      assert (B : 2 ^ (-51) <= 2 ^ e) by (apply pow2_le; lia).
      assert (O : 2 ^ 52 * 2 ^ (-51) == 2) by reflexivity.
      assert (c0 : 0 < 2 ^ 52) by apply pow2_pos.
      assert (d0 : 0 < 2 ^ (-51)) by apply pow2_pos.
      set (a := inject_Z (Z.pos m)) in *. set (p := 2 ^ e) in *.
      set (c := 2 ^ 52) in *. set (d := 2 ^ (-51)) in *.
      clearbody a p c d. nra.
Qed.

(** The bounds on the operations of the script *)
Lemma add_bound (a b : float) :
  finite a = true -> finite b = true ->
  Qabs (value a + value b) < 2 ^ 29 ->
  finite (a + b) = true
  /\ Qabs (value (a + b) - (value a + value b)) <= 2 ^ (-22).
Proof. unfold finite, value. rewrite add_spec. apply SFadd_bound. Qed.

Lemma sub_bound (a b : float) :
  finite a = true -> finite b = true ->
  Qabs (value a - value b) < 2 ^ 29 ->
  finite (a - b) = true
  /\ Qabs (value (a - b) - (value a - value b)) <= 2 ^ (-22).
Proof. unfold finite, value. rewrite sub_spec. apply SFsub_bound. Qed.

Lemma mul_bound (a b : float) :
  finite a = true -> finite b = true ->
  Qabs (value a * value b) < 2 ^ 29 ->
  finite (a * b) = true
  /\ Qabs (value (a * b) - value a * value b) <= 2 ^ (-22).
Proof. unfold finite, value. rewrite mul_spec. apply SFmul_bound. Qed.

(** [Math.abs(w) < 1] on doubles is the comparison of the numbers. *)
Lemma lt_one (w : float) :
  (PrimFloat.abs w <? 1)%float = true
  <-> finite w = true /\ Qabs (value w) < 1.
Proof.
  rewrite ltb_spec, abs_spec, one_spec. apply ltb_one_spec.
  apply Prim2SF_valid.
Qed.

Lemma tenth_finite : finite tenth = true.
Proof. vm_compute. reflexivity. Qed.

(** The double [0.1] is [1 / (5 * 2^55)] above a tenth. *)
Lemma tenth_value : value tenth == 3602879701896397 # 36028797018963968.
Proof. vm_compute. reflexivity. Qed.

Lemma Qabs_lt_inv (x y : Q) : Qabs x < y -> - y < x /\ x < y.
Proof.
  intro H. destruct (Qlt_le_dec x 0) as [N | P].
  - rewrite Qabs_neg in H by lra. lra.
  - rewrite Qabs_pos in H by lra. lra.
Qed.

Lemma Qabs_lt (x y : Q) : - y < x -> x < y -> Qabs x < y.
Proof.
  intros L U. destruct (Qlt_le_dec x 0) as [N | P].
  - rewrite Qabs_neg by lra. lra.
  - rewrite Qabs_pos by lra. lra.
Qed.

Lemma c20 : 2 ^ (-20) == 1 # 1048576. Proof. reflexivity. Qed.
Lemma c21 : 2 ^ (-21) == 1 # 2097152. Proof. reflexivity. Qed.
Lemma c26 : 2 ^ 26 == 67108864. Proof. reflexivity. Qed.
Lemma c27 : 2 ^ 27 == 134217728. Proof. reflexivity. Qed.

(** The step on one axis, three rounded operations, leaves nine tenths of
    the distance up to [2^-20] of a pixel. *)
Lemma ease_bound (x t : float) :
  finite x = true -> finite t = true ->
  Qabs (value t) <= 2 ^ 26 -> Qabs (value t - value x) <= 2 ^ 27 ->
  finite (Tooltip.ease x t) = true
  /\ Qabs ((value t - value (Tooltip.ease x t))
           - (9 # 10) * (value t - value x))
     <= 2 ^ (-20).
Proof.
  intros Fx Ft Bt Bg. unfold Tooltip.ease.
  pose proof c20 as C20. pose proof c22 as C22. pose proof c26 as C26.
  pose proof c27 as C27. pose proof c29 as C29.
  apply Qabs_le_inv in Bt. apply Qabs_le_inv in Bg.
  destruct (sub_bound t x Ft Fx) as [Fd Ed].
  { apply Qabs_lt; lra. }
  apply Qabs_le_inv in Ed.
  destruct (mul_bound (t - x) tenth Fd tenth_finite) as [Fp Ep].
  { rewrite tenth_value. apply Qabs_lt; lra. }
  rewrite tenth_value in Ep. apply Qabs_le_inv in Ep.
  destruct (add_bound x ((t - x) * tenth) Fx Fp) as [Fs Es].
  { apply Qabs_lt; lra. }
  apply Qabs_le_inv in Es.
  split; [exact Fs |]. apply Qabs_le; lra.
Qed.

(** The test of [move] on one axis, taken on the rounded difference. *)
Lemma test_true (t a : float) :
  finite t = true -> finite a = true ->
  Qabs (value t - value a) <= 1 - 2 ^ (-21) ->
  (PrimFloat.abs (t - a) <? 1)%float = true.
Proof.
  intros Ft Fa H. pose proof c22 as C22. pose proof c29 as C29.
  pose proof c21 as C21.
  apply Qabs_le_inv in H.
  destruct (sub_bound t a Ft Fa) as [Fw Ew].
  { apply Qabs_lt; lra. }
  apply Qabs_le_inv in Ew.
  apply lt_one. split; [exact Fw |]. apply Qabs_lt; lra.
Qed.

Lemma test_true_inv (t a : float) :
  finite t = true -> finite a = true ->
  Qabs (value t - value a) < 2 ^ 29 ->
  (PrimFloat.abs (t - a) <? 1)%float = true ->
  Qabs (value t - value a) < 1 + 2 ^ (-22).
Proof.
  intros Ft Fa B H. pose proof c22 as C22.
  destruct (sub_bound t a Ft Fa B) as [Fw Ew].
  apply Qabs_le_inv in Ew.
  apply lt_one in H. destruct H as [_ H]. apply Qabs_lt_inv in H.
  apply Qabs_lt; lra.
Qed.

Lemma test_false (t a : float) :
  finite t = true -> finite a = true ->
  Qabs (value t - value a) < 2 ^ 29 ->
  (PrimFloat.abs (t - a) <? 1)%float = false ->
  1 - 2 ^ (-22) <= Qabs (value t - value a).
Proof.
  intros Ft Fa B H. pose proof c22 as C22.
  destruct (sub_bound t a Ft Fa B) as [Fw Ew].
  apply Qabs_le_inv in Ew.
  destruct (Qlt_le_dec (Qabs (value t - value a)) (1 - 2 ^ (-22)))
    as [L | G]; [exfalso | exact G].
  assert (T : (PrimFloat.abs (t - a) <? 1)%float = true).
  { apply lt_one. split; [exact Fw |]. apply Qabs_lt_inv in L.
    apply Qabs_lt; lra. }
  congruence.
Qed.

End Rounding.

(** ** Tooltip *)

Section TooltipFacts.
Import Tooltip.

Lemma near_abs (tx ty a b : float) :
  near tx ty a b = true
  <-> (PrimFloat.abs (tx - a) <? 1)%float = true
      /\ (PrimFloat.abs (ty - b) <? 1)%float = true.
Proof. unfold near. apply andb_true_iff. Qed.

Lemma near_false (tx ty a b : float) :
  near tx ty a b = false
  <-> (PrimFloat.abs (tx - a) <? 1)%float = false
      \/ (PrimFloat.abs (ty - b) <? 1)%float = false.
Proof. unfold near. apply andb_false_iff. Qed.

Lemma move_near (s : t) :
  near (targetX s) (targetY s) (stepX s) (stepY s) = true ->
  x (move s) = targetX s /\ y (move s) = targetY s
  /\ frames (move s) = frames s.
Proof.
  intro H. unfold move. fold (stepX s) (stepY s). rewrite H. cbn. auto.
Qed.

Lemma move_far (s : t) :
  near (targetX s) (targetY s) (stepX s) (stepY s) = false ->
  x (move s) = stepX s /\ y (move s) = stepY s
  /\ frames (move s) = S (frames s).
Proof.
  intro H. unfold move. fold (stepX s) (stepY s). rewrite H. cbn. auto.
Qed.

Lemma fire_S (s : t) (k : nat) :
  frames s = S k -> fire s = move (with_frames k s).
Proof. intro F. unfold fire. now rewrite F. Qed.

Lemma settle_idle (fuel : nat) (s : t) :
  frames s = O -> settle fuel s = Some (O, s).
Proof. intro F. destruct fuel; cbn; now rewrite F. Qed.

Lemma settle_S (fuel : nat) (s : t) (k : nat) :
  frames s = S k ->
  settle (S fuel) s
  = match settle fuel (fire s) with
    | Some (j, r) => Some (S j, r)
    | None => None
    end.
Proof. intro F. cbn [settle]. now rewrite F. Qed.

(** The number of frames that ran is all the fuel [settle] needs. *)
Lemma settle_exact (fuel : nat) :
  forall (s : t) (k : nat) (r : t),
    settle fuel s = Some (k, r) ->
    forall fuel', (k <= fuel')%nat -> settle fuel' s = Some (k, r).
Proof.
  induction fuel as [| fuel IH]; intros s k r E fuel' L.
  - destruct (frames s) eqn:F; cbn in E; rewrite F in E; [| discriminate].
    injection E as <- <-. now apply settle_idle.
  - destruct (frames s) as [| j] eqn:F.
    + rewrite settle_idle in E by exact F. injection E as <- <-.
      now apply settle_idle.
    + rewrite (settle_S fuel s j F) in E.
      destruct (settle fuel (fire s)) as [[k0 r0] |] eqn:E0; [| discriminate].
      injection E as <- <-.
      destruct fuel' as [| fuel']; [lia |].
      rewrite (settle_S fuel' s j F).
      rewrite (IH (fire s) k0 r0 E0 fuel') by lia. reflexivity.
Qed.

Lemma show_move (point : Point) (text : string) (s : t) :
  show point text s = move (shown point text s).
Proof. reflexivity. Qed.

Lemma show_fields (point : Point) (text : string) (s : t) :
  targetX (show point text s) = px point
  /\ targetY (show point text s) = py point
  /\ visible (show point text s) = true
  /\ opacity (show point text s) = Some 1
  /\ innerHTML (show point text s) = text.
Proof. repeat split. Qed.

Lemma show_hidden (point : Point) (text : string) (s : t) :
  visible s = false ->
  x (show point text s) = px point /\ y (show point text s) = py point
  /\ frames (show point text s) = frames s.
Proof.
  intro H. rewrite show_move.
  assert (N : near (targetX (shown point text s)) (targetY (shown point text s))
                   (stepX (shown point text s)) (stepY (shown point text s))
              = true).
  { pose proof (onScreen point) as F. apply andb_true_iff in F.
    apply near_abs. unfold stepX, stepY, shown. rewrite H. cbn.
    split; apply rest_within; apply F. }
  exact (move_near _ N).
Qed.

Lemma show_visible (point : Point) (text : string) (s : t) :
  visible s = true ->
  if near (px point) (py point)
          (x s + (px point - x s) * Double.tenth)%float
          (y s + (py point - y s) * Double.tenth)%float
  then x (show point text s) = px point /\ y (show point text s) = py point
       /\ frames (show point text s) = frames s
  else x (show point text s) = (x s + (px point - x s) * Double.tenth)%float
       /\ y (show point text s) = (y s + (py point - y s) * Double.tenth)%float
       /\ frames (show point text s) = S (frames s).
Proof.
  intro H. rewrite show_move.
  destruct (near (px point) (py point)
                 (x s + (px point - x s) * Double.tenth)%float
                 (y s + (py point - y s) * Double.tenth)%float) eqn:N.
  - apply (move_near (shown point text s)).
    unfold stepX, stepY, shown. cbn [x y targetX targetY].
    rewrite H. exact N.
  - replace (x s + (px point - x s) * Double.tenth)%float
      with (stepX (shown point text s))
      by (unfold stepX, shown; cbn [x targetX]; now rewrite H).
    replace (y s + (py point - y s) * Double.tenth)%float
      with (stepY (shown point text s))
      by (unfold stepY, shown; cbn [y targetY]; now rewrite H).
    apply (move_far (shown point text s)).
    unfold stepX, stepY, shown. cbn [x y targetX targetY].
    rewrite H. exact N.
Qed.

(** The tooltip that is caught where the step of 10% rounds to nothing:
    at [2^53], two pixels left of its target. *)
Lemma stalled_move (s : t) :
  x s = 0x1p53%float -> targetX s = 0x1.0000000000001p53%float ->
  y s = 0%float -> targetY s = 0%float ->
  x (move s) = x s /\ targetX (move s) = targetX s
  /\ y (move s) = y s /\ targetY (move s) = targetY s
  /\ frames (move s) = S (frames s).
Proof.
  intros Hx Ht Hy Hty.
  assert (N : near (targetX s) (targetY s) (stepX s) (stepY s) = false).
  { unfold stepX, stepY. rewrite Hx, Ht, Hy, Hty. vm_compute. reflexivity. }
  destruct (move_far s N) as (Mx & My & Mf).
  rewrite Mx, My, Mf. repeat split.
  - unfold stepX. rewrite Hx, Ht. vm_compute. reflexivity.
  - unfold stepY. rewrite Hy, Hty. vm_compute. reflexivity.
Qed.

Lemma stalled_forever (fuel : nat) :
  forall s : t,
    x s = 0x1p53%float -> targetX s = 0x1.0000000000001p53%float ->
    y s = 0%float -> targetY s = 0%float ->
    (0 < frames s)%nat ->
    settle fuel s = None.
Proof.
  induction fuel as [| fuel IH]; intros s Hx Ht Hy Hty Hf.
  - cbn. destruct (frames s); [lia | reflexivity].
  - destruct (frames s) as [| k] eqn:F; [lia |].
    rewrite (settle_S fuel s k F), (fire_S s k F).
    destruct (stalled_move (with_frames k s) Hx Ht Hy Hty)
      as (Mx & Mt & My & Mty & Mf).
    rewrite IH; [reflexivity | | | | |].
    + now rewrite Mx.
    + now rewrite Mt.
    + now rewrite My.
    + now rewrite Mty.
    + rewrite Mf. lia.
Qed.

End TooltipFacts.

(** ** The easing loop stops

    With the target at most [2^26] pixels from the origin and the
    position at most [2^27] pixels from the target, a step leaves nine
    tenths of the distance up to [2^-20] of a pixel on each axis; so from
    within [radius n] the loop is within the pixel after [n] steps, and
    the next run of [move] snaps. *)

Section EasingFacts.
Import Double Tooltip.
Local Open Scope Q_scope.

Lemma small_spec (f : float) :
  small f = true <-> finite f = true /\ Qabs (value f) <= 2 ^ 26.
Proof. unfold small. rewrite andb_true_iff, Qle_bool_iff. tauto. Qed.

Lemma inside_spec (n : nat) (tg p : float) :
  inside n tg p = true
  <-> finite tg = true /\ finite p = true
      /\ Qabs (value tg) <= 2 ^ 26
      /\ Qabs (gap tg p) <= 2 ^ 27 /\ Qabs (gap tg p) <= radius n.
Proof.
  unfold inside. rewrite !andb_true_iff, !Qle_bool_iff. tauto.
Qed.

Lemma within_spec (n : nat) (s : t) :
  within n s = true
  <-> inside n (targetX s) (x s) = true /\ inside n (targetY s) (y s) = true.
Proof. unfold within. apply andb_true_iff. Qed.

Lemma reach_pos (n : nat) : 1 <= reach n.
Proof. induction n as [| n IH]; cbn [reach]; lra. Qed.

Lemma radius_pos (n : nat) : 0 <= radius n.
Proof. unfold radius. pose proof (reach_pos n). lra. Qed.

Lemma radius_S (n : nat) :
  (9 # 10) * radius (S n) + 2 ^ (-20) <= radius n.
Proof.
  unfold radius. cbn [reach]. pose proof c20. pose proof (reach_pos n). lra.
Qed.

Lemma radius_0 : (9 # 10) * radius 0 + 2 ^ (-20) <= 1 - 2 ^ (-21).
Proof.
  unfold radius. cbn [reach]. pose proof c20. pose proof c21. lra.
Qed.

Lemma radius_178 : 2 ^ 27 <= radius 178.
Proof. apply Qle_bool_iff. vm_compute. reflexivity. Qed.

Lemma gap_self (p : float) : gap p p == 0.
Proof. unfold gap. ring. Qed.

(** One step on an axis *)
Lemma inside_step (n : nat) (tg p : float) :
  inside n tg p = true ->
  finite tg = true /\ finite (ease p tg) = true
  /\ Qabs (gap tg (ease p tg) - (9 # 10) * gap tg p) <= 2 ^ (-20)
  /\ Qabs (gap tg (ease p tg)) < 2 ^ 29.
Proof.
  intro H. apply inside_spec in H. destruct H as (Ft & Fp & Bt & Bg & _).
  destruct (ease_bound p tg Fp Ft Bt Bg) as [Fe Be].
  repeat split; try assumption.
  pose proof c20. pose proof c27. pose proof c29. unfold gap in *.
  apply Qabs_le_inv in Be. apply Qabs_le_inv in Bg.
  apply Qabs_lt; lra.
Qed.

Lemma inside_0_test (tg p : float) :
  inside 0 tg p = true ->
  (PrimFloat.abs (tg - ease p tg) <? 1)%float = true.
Proof.
  intro H. apply inside_spec in H. destruct H as (Ft & Fp & Bt & Bg & Br).
  destruct (ease_bound p tg Fp Ft Bt Bg) as [Fe Be].
  apply test_true; [exact Ft | exact Fe |].
  pose proof radius_0 as R0. unfold gap in *.
  apply Qabs_le_inv in Be. apply Qabs_le_inv in Br.
  apply Qabs_le; lra.
Qed.

Lemma inside_S_ease (n : nat) (tg p : float) :
  inside (S n) tg p = true -> inside n tg (ease p tg) = true.
Proof.
  intro H. apply inside_spec in H. destruct H as (Ft & Fp & Bt & Bg & Br).
  destruct (ease_bound p tg Fp Ft Bt Bg) as [Fe Be].
  apply inside_spec. repeat split; try assumption.
  - pose proof c27. pose proof c20. unfold gap in *.
    apply Qabs_le_inv in Be. apply Qabs_le_inv in Bg.
    apply Qabs_le; lra.
  - pose proof (radius_S n). unfold gap in *.
    apply Qabs_le_inv in Be. apply Qabs_le_inv in Br.
    apply Qabs_le; lra.
Qed.

Lemma inside_target (n m : nat) (tg p : float) :
  inside n tg p = true -> inside m tg tg = true.
Proof.
  intro H. apply inside_spec in H. destruct H as (Ft & Fp & Bt & Bg & Br).
  apply inside_spec. repeat split; try assumption.
  - rewrite gap_self. discriminate.
  - rewrite gap_self. apply (radius_pos m).
Qed.

Lemma small_inside (tg p : float) :
  small tg = true -> small p = true -> inside 178 tg p = true.
Proof.
  intros St Sp. apply small_spec in St. apply small_spec in Sp.
  destruct St as [Ft Bt]. destruct Sp as [Fp Bp].
  assert (G : Qabs (gap tg p) <= 2 ^ 27).
  { pose proof c26. pose proof c27. unfold gap.
    apply Qabs_le_inv in Bt. apply Qabs_le_inv in Bp.
    apply Qabs_le; lra. }
  apply inside_spec. repeat split; try assumption.
  pose proof radius_178. lra.
Qed.

Lemma inRange_within (s : t) : inRange s = true -> within 178 s = true.
Proof.
  unfold inRange. rewrite !andb_true_iff. intros [[[Sx Sy] Stx] Sty].
  apply within_spec. split; apply small_inside; assumption.
Qed.

(** One run of [move] *)
Lemma within_0_near (s : t) :
  within 0 s = true ->
  near (targetX s) (targetY s) (stepX s) (stepY s) = true.
Proof.
  intro W. apply within_spec in W. destruct W as [WX WY].
  unfold near. apply andb_true_iff. split.
  - exact (inside_0_test _ _ WX).
  - exact (inside_0_test _ _ WY).
Qed.

Lemma within_near (n m : nat) (s : t) :
  within n s = true ->
  near (targetX s) (targetY s) (stepX s) (stepY s) = true ->
  within m (move s) = true.
Proof.
  intros W N. destruct (move_near s N) as (EX & EY & _).
  apply within_spec in W. destruct W as [WX WY].
  apply within_spec. rewrite EX, EY. cbn [move targetX targetY].
  split; eapply inside_target; eassumption.
Qed.

Lemma within_far (n : nat) (s : t) :
  within (S n) s = true ->
  near (targetX s) (targetY s) (stepX s) (stepY s) = false ->
  within n (move s) = true.
Proof.
  intros W N. destruct (move_far s N) as (EX & EY & _).
  apply within_spec in W. destruct W as [WX WY].
  apply within_spec. rewrite EX, EY. cbn [move targetX targetY].
  split; apply inside_S_ease; assumption.
Qed.

(** The frames outstanding from within [radius n] all run, at most
    [n] of them rescheduling, and leave the position on the target. *)
Lemma settle_reaches (fuel : nat) :
  forall (n : nat) (s : t),
    within n s = true -> (1 <= frames s)%nat ->
    (n + frames s <= fuel)%nat ->
    exists k r, settle fuel s = Some (k, r)
                /\ (1 <= k <= n + frames s)%nat
                /\ x r = targetX s /\ y r = targetY s
                /\ targetX r = targetX s /\ targetY r = targetY s
                /\ visible r = visible s /\ opacity r = opacity s
                /\ innerHTML r = innerHTML s /\ frames r = O.
Proof.
  induction fuel as [| fuel IH]; intros n s W F L; [lia |].
  destruct (frames s) as [| k] eqn:Fs; [lia |].
  rewrite (settle_S fuel s k Fs), (fire_S s k Fs).
  set (s0 := with_frames k s).
  assert (W0 : within n s0 = true) by exact W.
  destruct (near (targetX s0) (targetY s0) (stepX s0) (stepY s0)) eqn:N.
  - destruct (move_near s0 N) as (EX & EY & EF).
    pose proof (within_near n 0 s0 W0 N) as W1.
    destruct k as [| k].
    + rewrite (settle_idle fuel (move s0)) by exact EF.
      exists 1%nat, (move s0). repeat split; try assumption; try lia.
    + destruct (IH 0%nat (move s0) W1)
        as (j & r & E & B & RX & RY & TX & TY & V & Op & Tx & R0).
      { rewrite EF. cbn. lia. }
      { rewrite EF. cbn. lia. }
      rewrite E. exists (S j), r. rewrite EF in B. cbn in B.
      repeat split; try assumption; try lia.
  - destruct n as [| n].
    + rewrite (within_0_near s0 W0) in N. discriminate.
    + destruct (move_far s0 N) as (EX & EY & EF).
      pose proof (within_far n s0 W0 N) as W1.
      destruct (IH n (move s0) W1)
        as (j & r & E & B & RX & RY & TX & TY & V & Op & Tx & R0).
      { rewrite EF. lia. }
      { rewrite EF. cbn. lia. }
      rewrite E. exists (S j), r. rewrite EF in B. cbn in B.
      repeat split; try assumption; try lia.
Qed.

(** The same counted from a call of [move]: the run that [show] makes. *)
Lemma settle_after_move (n : nat) (s : t) :
  within n s = true ->
  exists k r, settle (n + frames s) (move s) = Some (k, r)
              /\ (k <= n + frames s)%nat
              /\ x r = targetX s /\ y r = targetY s
              /\ targetX r = targetX s /\ targetY r = targetY s
              /\ visible r = visible s /\ opacity r = opacity s
              /\ innerHTML r = innerHTML s /\ frames r = O.
Proof.
  intro W.
  destruct (near (targetX s) (targetY s) (stepX s) (stepY s)) eqn:N.
  - destruct (move_near s N) as (EX & EY & EF).
    destruct (frames s) as [| j] eqn:Fs.
    + rewrite settle_idle by exact EF.
      exists O, (move s). repeat split; try assumption; try lia.
    + destruct (settle_reaches (n + S j) 0 (move s) (within_near n 0 s W N))
        as (k & r & E & B & R).
      { rewrite EF. lia. }
      { rewrite EF. lia. }
      exists k, r. rewrite EF in B. split; [exact E |].
      split; [lia | exact R].
  - destruct n as [| n].
    + rewrite (within_0_near s W) in N. discriminate.
    + destruct (move_far s N) as (EX & EY & EF).
      destruct (settle_reaches (S n + frames s) n (move s) (within_far n s W N))
        as (k & r & E & B & R).
      { rewrite EF. lia. }
      { rewrite EF. lia. }
      exists k, r. rewrite EF in B. split; [exact E |].
      split; [lia | exact R].
Qed.

End EasingFacts.

(** ** The tooltip: easing, show and hide *)

Section TooltipClaims.
Import Tooltip.

(** C2, as the script has it.  A frame moves the position by 10% of the
    remaining distance on each axis, computed on doubles; when both gaps
    then left are below one pixel it puts the position exactly on the
    target and schedules nothing, and otherwise, also when a gap is
    exactly one pixel, it schedules one more frame.  From (0,0) towards
    (100,0) the loop stops at the 44th run of [move], the first one and
    43 scheduled frames, on (100,0) exactly, and not before.  The loop
    stops whenever the coordinates are at most [2^26] pixels in
    magnitude: after a run of [move], at most 178 frames besides those
    already outstanding run, and they leave the position exactly on the
    target and no frame outstanding. *)
Theorem tooltip_easing_frames :
  (forall s,
      let stop := near (targetX s) (targetY s) (stepX s) (stepY s) in
      (stop = true
       <-> (PrimFloat.abs (targetX s - stepX s) <? 1)%float = true
           /\ (PrimFloat.abs (targetY s - stepY s) <? 1)%float = true)
      /\ (stop = false
          <-> (PrimFloat.abs (targetX s - stepX s) <? 1)%float = false
              \/ (PrimFloat.abs (targetY s - stepY s) <? 1)%float = false)
      /\ (stop = false -> x (move s) = stepX s /\ y (move s) = stepY s
                          /\ frames (move s) = S (frames s))
      /\ (stop = true -> x (move s) = targetX s /\ y (move s) = targetY s
                         /\ frames (move s) = frames s))
  /\ (exists r, settle 43 (move (at_ 0 0 100 0)) = Some (43%nat, r)
                /\ x r = 100%float /\ y r = 0%float /\ frames r = O)
  /\ settle 42 (move (at_ 0 0 100 0)) = None
  /\ (forall s,
        inRange s = true ->
        exists k r, settle (178 + frames s) (move s) = Some (k, r)
                    /\ (k <= 178 + frames s)%nat
                    /\ x r = targetX s /\ y r = targetY s
                    /\ frames r = O).
Proof.
  split; [| split; [| split]].
  - intros s stop. subst stop.
    split; [apply near_abs |]. split; [apply near_false |].
    split; [apply move_far | apply move_near].
  - destruct (settle 43 (move (at_ 0 0 100 0))) as [[k r] |] eqn:E;
      [| vm_compute in E; discriminate].
    exists r.
    assert (K : option_map (fun p => (fst p, x (snd p), y (snd p),
                                      frames (snd p)))
                           (settle 43 (move (at_ 0 0 100 0)))
                = Some (43%nat, 100%float, 0%float, O))
      by (vm_compute; reflexivity).
    rewrite E in K. cbn in K. injection K as -> -> -> ->.
    repeat split.
  - vm_compute. reflexivity.
  - intros s R.
    destruct (settle_after_move 178 s (inRange_within s R))
      as (k & r & E & B & RX & RY & _ & _ & _ & _ & _ & R0).
    exists k, r. auto.
Qed.

Lemma tooltip_easing_frames_witness :
  near 100 0 (stepX (at_ 0 0 100 0)) (stepY (at_ 0 0 100 0)) = false
  /\ (x (move (at_ 0 0 100 0)) = stepX (at_ 0 0 100 0)
      /\ y (move (at_ 0 0 100 0)) = stepY (at_ 0 0 100 0)
      /\ frames (move (at_ 0 0 100 0)) = 1%nat)
  /\ inRange (at_ 0 0 100 0) = true
  /\ (exists k r,
        settle (178 + frames (at_ 0 0 100 0)) (move (at_ 0 0 100 0))
        = Some (k, r)
        /\ (k <= 178 + frames (at_ 0 0 100 0))%nat
        /\ x r = targetX (at_ 0 0 100 0) /\ y r = targetY (at_ 0 0 100 0)
        /\ frames r = O).
Proof.
  assert (N : near 100 0 (stepX (at_ 0 0 100 0)) (stepY (at_ 0 0 100 0))
              = false) by (vm_compute; reflexivity).
  assert (R : inRange (at_ 0 0 100 0) = true) by (vm_compute; reflexivity).
  split; [exact N |].
  split; [exact (proj1 (proj2 (proj2 (proj1 tooltip_easing_frames
                                            (at_ 0 0 100 0)))) N) |].
  split; [exact R |].
  exact (proj2 (proj2 (proj2 tooltip_easing_frames)) (at_ 0 0 100 0) R).
Defined.

(** C2, as stated, fails twice.  With the position at 10 and the target
    at 11.11111111111111 the gap left after the step is exactly one
    pixel, which does not exceed the threshold, and yet the frame does
    not snap but schedules another one.  And the loop does not stop from
    every position: at [2^53] with the target two pixels on, the step
    rounds to nothing and every frame schedules the next. *)
Lemma easing_one_pixel_and_stall :
  ((targetX (move (at_ 10 0 0x1.638e38e38e38ep+3 0))
    - x (move (at_ 10 0 0x1.638e38e38e38ep+3 0)))%float = 1%float
   /\ frames (move (at_ 10 0 0x1.638e38e38e38ep+3 0)) = 1%nat
   /\ x (move (at_ 10 0 0x1.638e38e38e38ep+3 0))
      <> targetX (move (at_ 10 0 0x1.638e38e38e38ep+3 0)))
  /\ (forall fuel,
        settle fuel (move (at_ 0x1p53 0 0x1.0000000000001p53 0)) = None).
Proof.
  split.
  - split; [vm_compute; reflexivity |].
    split; [vm_compute; reflexivity |].
    intro H. apply (f_equal (fun f => PrimFloat.eqb f 0x1.638e38e38e38ep+3)) in H.
    vm_compute in H. discriminate.
  - intro fuel.
    destruct (stalled_move (at_ 0x1p53 0 0x1.0000000000001p53 0))
      as (Mx & Mt & My & Mty & Mf); try reflexivity.
    apply stalled_forever.
    + now rewrite Mx.
    + now rewrite Mt.
    + now rewrite My.
    + now rewrite Mty.
    + rewrite Mf. lia.
Qed.

(** C5, as the script has it.  [show] always sets the target to the point,
    makes the tooltip fully visible and replaces the text.  Hidden before,
    the position is put on the point.  Visible before, the position is not
    put on the point: [show] runs the first easing step itself, so on
    return the position is 10% of the remaining distance closer to the
    point, as the doubles give it, and a frame is scheduled, or is on the
    point when that step leaves less than one pixel on both axes. *)
Theorem show_snaps_hidden_eases_visible
        (point : Point) (text : string) (s : t) :
  (targetX (show point text s) = px point
   /\ targetY (show point text s) = py point
   /\ visible (show point text s) = true
   /\ opacity (show point text s) = Some 1
   /\ innerHTML (show point text s) = text)
  /\ (visible s = false ->
      x (show point text s) = px point /\ y (show point text s) = py point
      /\ frames (show point text s) = frames s)
  /\ (visible s = true ->
      if near (px point) (py point)
              (x s + (px point - x s) * Double.tenth)%float
              (y s + (py point - y s) * Double.tenth)%float
      then x (show point text s) = px point
           /\ y (show point text s) = py point
           /\ frames (show point text s) = frames s
      else x (show point text s)
           = (x s + (px point - x s) * Double.tenth)%float
           /\ y (show point text s)
              = (y s + (py point - y s) * Double.tenth)%float
           /\ frames (show point text s) = S (frames s)).
Proof.
  split; [apply show_fields |].
  split; [apply show_hidden | apply show_visible].
Qed.

Lemma show_snaps_hidden_eases_visible_witness :
  visible createTooltip = false
  /\ x (show {| px := 3; py := 4; onScreen := eq_refl |} "a" createTooltip)
     = 3%float
  /\ y (show {| px := 3; py := 4; onScreen := eq_refl |} "a" createTooltip)
     = 4%float
  /\ frames (show {| px := 3; py := 4; onScreen := eq_refl |} "a"
                  createTooltip) = O.
Proof.
  split; [reflexivity |].
  exact (proj1 (proj2 (show_snaps_hidden_eases_visible
                         {| px := 3; py := 4; onScreen := eq_refl |} "a"
                         createTooltip))
               eq_refl).
Defined.

(** C5, as stated, fails: shown at (0,0) and then, still visible, at
    (100,0), the tooltip is at (10,0) when the second [show] returns, not
    at (0,0) any more. *)
Lemma show_while_visible_changes_position :
  visible (show {| px := 0; py := 0; onScreen := eq_refl |} "a"
                createTooltip) = true
  /\ x (show {| px := 0; py := 0; onScreen := eq_refl |} "a" createTooltip)
     = 0%float
  /\ x (show {| px := 100; py := 0; onScreen := eq_refl |} "b"
             (show {| px := 0; py := 0; onScreen := eq_refl |} "a"
                   createTooltip)) = 10%float
  /\ x (show {| px := 100; py := 0; onScreen := eq_refl |} "b"
             (show {| px := 0; py := 0; onScreen := eq_refl |} "a"
                   createTooltip))
     <> x (show {| px := 0; py := 0; onScreen := eq_refl |} "a"
                createTooltip).
Proof.
  assert (E : x (show {| px := 100; py := 0; onScreen := eq_refl |} "b"
                      (show {| px := 0; py := 0; onScreen := eq_refl |} "a"
                            createTooltip)) = 10%float)
    by (vm_compute; reflexivity).
  assert (Z : x (show {| px := 0; py := 0; onScreen := eq_refl |} "a"
                      createTooltip) = 0%float)
    by (vm_compute; reflexivity).
  repeat split; trivial.
  rewrite E, Z. intro H.
  apply (f_equal (fun f => PrimFloat.eqb f 0)) in H. vm_compute in H.
  discriminate.
Qed.

(** C7.  [hide] sets the opacity to 0 and clears the visible flag; the
    position, the target, the text, the transform and the outstanding
    frames stay as they were.  A later [show] puts the position on its
    point. *)
Theorem hide_only_fades (s : t) :
  opacity (hide s) = Some 0 /\ visible (hide s) = false
  /\ x (hide s) = x s /\ y (hide s) = y s
  /\ targetX (hide s) = targetX s /\ targetY (hide s) = targetY s
  /\ innerHTML (hide s) = innerHTML s
  /\ transform (hide s) = transform s /\ frames (hide s) = frames s
  /\ (forall point text,
        x (show point text (hide s)) = px point
        /\ y (show point text (hide s)) = py point).
Proof.
  repeat split; destruct (show_hidden point text (hide s) eq_refl)
    as (Hx & Hy & _); assumption.
Qed.

End TooltipClaims.

(** ** Hover *)

Section HoverFacts.
Import Hover.

Lemma filter_head_find {A : Type} (f : A -> bool) (l : list A) :
  match filter f l with nil => None | a :: _ => Some a end = find f l.
Proof.
  induction l as [| a l IH]; cbn; [reflexivity |].
  destruct (f a); [reflexivity | exact IH].
Qed.

Lemma hitTest_fulfilled (raw : HitTestResult) :
  hitTest (Fulfilled raw)
  = Fulfilled
      (match find (fun g => Nat.eqb (glayer g) layer) (results raw) with
       | Some g => Some {| graphic := g; screenPoint := rawScreenPoint raw |}
       | None => None
       end).
Proof.
  unfold hitTest, andThen. rewrite <- filter_head_find.
  destruct (filter _ (results raw)); reflexivity.
Qed.

Lemma clearHighlight_clears (s : t) :
  consistent s ->
  highlight (clearHighlight s) = None
  /\ highlights (layerview (clearHighlight s)) = nil
  /\ tooltip (clearHighlight s) = tooltip s
  /\ next (layerview (clearHighlight s)) = next (layerview s).
Proof.
  unfold consistent, clearHighlight. intro C.
  destruct (highlight s) as [h |] eqn:E.
  - cbn. repeat split; try reflexivity.
    destruct (highlights (layerview s)) as [| [h0 g] [| e l]];
      cbn in C; try discriminate.
    injection C as ->. cbn. now rewrite Nat.eqb_refl.
  - repeat split; try reflexivity; [exact E |].
    destruct (highlights (layerview s)); [reflexivity | discriminate].
Qed.

Lemma onHit_some (h : Hit) (s : t) :
  consistent s ->
  highlights (layerview (onHit (Some h) s))
  = ((next (layerview s), graphic h) :: nil)
  /\ highlight (onHit (Some h) s) = Some (next (layerview s))
  /\ tooltip (onHit (Some h) s)
     = Tooltip.show (screenPoint h)
         ("Titled in " ++ text (getAttribute (graphic h) "CNSTRCT_YR"))
         (tooltip s).
Proof.
  intro C. destruct (clearHighlight_clears s C) as (_ & L & T & N).
  unfold onHit, applyHit, highlightGraphic. cbn. rewrite L, T, N. auto.
Qed.

Lemma onHit_none (s : t) :
  consistent s ->
  highlights (layerview (onHit None s)) = nil
  /\ highlight (onHit None s) = None
  /\ tooltip (onHit None s) = Tooltip.hide (tooltip s).
Proof.
  intro C. destruct (clearHighlight_clears s C) as (H & L & T & _).
  unfold onHit, applyHit. cbn. rewrite L, T, H. auto.
Qed.

Lemma onHit_consistent (hit : option Hit) (s : t) :
  consistent s -> consistent (onHit hit s).
Proof.
  intro C. unfold consistent. destruct hit as [h |].
  - destruct (onHit_some h s C) as (L & H & _). now rewrite L, H.
  - destruct (onHit_none s C) as (L & H & _). now rewrite L, H.
Qed.

Lemma pointerMove_consistent (p : Settled HitTestResult) (s : t) :
  consistent s -> consistent (fst (pointerMove p s)).
Proof.
  intro C. unfold pointerMove. destruct (hitTest p) as [hit | e]; cbn.
  - now apply onHit_consistent.
  - exact C.
Qed.





(** The text shown for a feature titled in 1923, and for one without the
    attribute. *)
Lemma pointerMove_text_examples :
  let g := {| glayer := layer; attributes := ("CNSTRCT_YR"%string, Num 1923) :: nil |} in
  let g' := {| glayer := layer; attributes := nil |} in
  let other := {| glayer := 1%nat; attributes := nil |} in
  let at56 := {| Tooltip.px := 5; Tooltip.py := 6;
                 Tooltip.onScreen := eq_refl |} in
  Tooltip.innerHTML
    (tooltip (fst (pointerMove
                     (Fulfilled {| results := other :: g :: g' :: nil;
                                   rawScreenPoint := at56 |})
                     setupHoverTooltip)))
  = "Titled in 1923"%string
  /\ Tooltip.innerHTML
       (tooltip (fst (pointerMove
                        (Fulfilled {| results := g' :: nil;
                                      rawScreenPoint := at56 |})
                        setupHoverTooltip)))
     = "Titled in undefined"%string
  /\ Tooltip.visible
       (tooltip (fst (pointerMove
                        (Fulfilled {| results := other :: nil;
                                      rawScreenPoint := at56 |})
                        setupHoverTooltip)))
     = false.
Proof. repeat split. Qed.

(** C9.  A rejected hit test reaches the listener as a rejection, whose
    handler does nothing: the highlight, the layer view and the tooltip
    are what they were, and the listener's promise is fulfilled. *)
Theorem rejected_hit_test_swallowed (reason : string) (s : t) :
  hitTest (Rejected reason) = Rejected reason
  /\ pointerMove (Rejected reason) s = (s, Fulfilled tt)
  /\ tooltip (fst (pointerMove (Rejected reason) s)) = tooltip s
  /\ highlight (fst (pointerMove (Rejected reason) s)) = highlight s
  /\ layerview (fst (pointerMove (Rejected reason) s)) = layerview s.
Proof.
  assert (E : pointerMove (Rejected reason) s = (s, Fulfilled tt)).
  { unfold pointerMove, hitTest, andThen. reflexivity. }
  rewrite E. repeat split.
Qed.

End HoverFacts.

(** ** Agreement with binary64 on the values of the page

    The slider and the animation produce the half-integers from 1871 to
    2022; on each of them the update on doubles is exact and gives the
    number the model gives. *)

Section Binary64Facts.
Import Animation.

Lemma binary64_agrees_on_range :
  forallb Binary64.agrees (map Z.of_nat (seq 3742 303)) = true.
Proof. vm_compute. reflexivity. Qed.

Lemma binary64_frame_agrees (k : Z) (w : World) :
  (3742 <= k <= 4044)%Z ->
  Binary64.toQc (Binary64.half k) = Some (Binary64.halfQc k)
  /\ Binary64.toQc (Binary64.nextValue (Binary64.half k))
     = Some (value (fst (frame (running (Binary64.halfQc k)) w))).
Proof.
  intro R.
  pose proof binary64_agrees_on_range as A.
  rewrite forallb_forall in A.
  specialize (A k).
  assert (I : In k (map Z.of_nat (seq 3742 303))).
  { apply in_map_iff. exists (Z.to_nat k). split; [lia |].
    apply in_seq. lia. }
  apply A in I. unfold Binary64.agrees in I.
  destruct (Binary64.toQc (Binary64.half k)) as [a |]; [| discriminate].
  destruct (Binary64.toQc (Binary64.nextValue (Binary64.half k))) as [b |];
    [| discriminate].
  apply andb_true_iff in I. destruct I as [Ia Ib].
  apply Qeq_bool_iff in Ia. apply Qeq_bool_iff in Ib.
  apply Qc_is_canon in Ia. apply Qc_is_canon in Ib.
  rewrite Ia, Ib. split; reflexivity.
Qed.

End Binary64Facts.

(** * Further properties *)

(** ** The animation loop over many ticks *)

Section AnimationRuns.
Import Animation.

Lemma ofNat_mono (m n : nat) : (m <= n)%nat -> JS.ofNat m <= JS.ofNat n.
Proof.
  intro H.
  assert (inject_Z (Z.of_nat m) <= inject_Z (Z.of_nat n))%Q.
  { rewrite <- Zle_Qle. lia. }
  qc_lra.
Qed.

Lemma ofNat_274 : JS.ofNat 274 = '274.
Proof. apply Qc_is_canon. reflexivity. Qed.

Lemma frame_grid_step (k : nat) (w : World) :
  (k < 274)%nat ->
  value (fst (frame (running ('1880 + '0.5 * JS.ofNat k)) w))
  = '1880 + '0.5 * JS.ofNat (S k).
Proof.
  intro H. pose proof (ofNat_mono (S k) 274 H) as L.
  rewrite ofNat_274, ofNat_S in L.
  rewrite frame_step; rewrite ?ofNat_S; qc_lra.
Qed.

Lemma frame_grid_wrap (w : World) :
  value (fst (frame (running ('1880 + '0.5 * JS.ofNat 274)) w))
  = '1880 + '0.5 * JS.ofNat 0.
Proof. apply Qc_is_canon. reflexivity. Qed.

(** The loop is periodic on the half-year grid from 1880 to 2017: from
    [1880 + k/2], [j] ticks lead to [1880 + ((k + j) mod 275)/2], so that
    275 ticks lead back to the start. *)
Theorem ticks_cycle (j : nat) :
  forall (k : nat) (w : World),
    (k <= 274)%nat ->
    value (fst (ticks j (running ('1880 + '0.5 * JS.ofNat k)) w))
    = '1880 + '0.5 * JS.ofNat ((k + j) mod 275).
Proof.
  induction j as [| j IH]; intros k w H.
  - rewrite Nat.add_0_r, Nat.mod_small by lia. reflexivity.
  - rewrite ticks_S.
    destruct (Nat.eq_dec k 274) as [-> | N].
    + rewrite frame_grid_wrap, (IH O) by lia.
      replace (274 + S j)%nat with (j + 1 * 275)%nat by lia.
      now rewrite Nat.Div0.mod_add.
    + rewrite frame_grid_step, (IH (S k)) by lia.
      now replace (S k + j)%nat with (k + S j)%nat by lia.
Qed.

Lemma ticks_cycle_witness :
  (3 <= 274)%nat
  /\ value (fst (ticks 275 (running ('1880 + '0.5 * JS.ofNat 3)) idle))
     = '1880 + '0.5 * JS.ofNat ((3 + 275) mod 275).
Proof.
  assert (H : (3 <= 274)%nat) by lia.
  split; [exact H | exact (ticks_cycle 275 3 idle H)].
Defined.

Lemma absorbed_after_first (v : Qc) (w : World) (m : nat) :
  '1879.5 <= v -> (1 <= m)%nat ->
  '1880 <= value (fst (ticks m (running v) w)) <= '2017.
Proof.
  intros H L. destruct m as [| m]; [lia |].
  rewrite ticks_S. apply ticks_range. split.
  - now apply frame_ge_1880.
  - apply frame_le_2017.
Qed.

Lemma absorbed_within (d : nat) :
  forall (v : Qc) (w : World),
    '1879.5 - v <= '0.5 * JS.ofNat d ->
    exists n, forall m, (n <= m)%nat ->
      '1880 <= value (fst (ticks m (running v) w)) <= '2017.
Proof.
  induction d as [| d IH]; intros v w H.
  - exists 1%nat. intros m L. apply absorbed_after_first; [| exact L].
    rewrite ofNat_0 in H. qc_lra.
  - destruct (Qclt_le_dec v '1879.5) as [Lt | Ge].
    + destruct (IH (v + '0.5) (snd (frame (running v) w))) as [n Hn].
      { rewrite ofNat_S in H. qc_lra. }
      exists (S n). intros m L. destruct m as [| m]; [lia |].
      rewrite ticks_S, frame_step by qc_lra.
      apply Hn. lia.
    + exists 1%nat. intros m L. now apply absorbed_after_first.
Qed.

(** From every start value the loop ends up between 1880 and 2017 and
    stays there: the years before 1880 and after 2017 are shown at most
    for an initial stretch. *)
Theorem ticks_absorbed (v : Qc) (w : World) :
  exists n, forall m, (n <= m)%nat ->
    '1880 <= value (fst (ticks m (running v) w)) <= '2017.
Proof.
  apply (absorbed_within
           (Z.to_nat (Z.max 0 (Qceiling (('1879.5 - v) * '2))))).
  pose proof (Qle_ceiling (('1879.5 - v) * '2)) as C.
  set (c := Qceiling (('1879.5 - v) * '2)) in *.
  assert (E : (inject_Z c <= inject_Z (Z.of_nat (Z.to_nat (Z.max 0 c))))%Q).
  { rewrite <- Zle_Qle. lia. }
  unfold JS.ofNat.
  set (m := inject_Z (Z.of_nat (Z.to_nat (Z.max 0 c)))) in *.
  clearbody m c. qc_lra.
Qed.

(** After every tick the page shows the tracked value: the thumb is at
    it, the label is its floor and the renderer is the one computed from
    it. *)
Theorem ticks_page_in_step (n : nat) :
  forall (v : Qc) (w : World),
    page (snd (ticks (S n) (running v) w))
    = {| Page.sliderValue :=
           JS.to_string
             (JS.floor (value (fst (ticks (S n) (running v) w))));
         Page.thumb := value (fst (ticks (S n) (running v) w));
         Page.renderer :=
           Some (Renderer.createRenderer
                   (value (fst (ticks (S n) (running v) w)))) |}.
Proof.
  induction n as [| n IH]; intros v w.
  - reflexivity.
  - rewrite (ticks_S (S n)). apply IH.
Qed.

(** Each tick makes exactly one update, with the value it has just
    stored: [n] ticks append the [n] successive values to the log. *)
Theorem ticks_updates (n : nat) :
  forall (v : Qc) (w : World),
    updates (snd (ticks n (running v) w))
    = (updates w
       ++ map (fun k => value (fst (ticks (S k) (running v) w))) (seq 0 n))%list.
Proof.
  induction n as [| n IH]; intros v w.
  - cbn. now rewrite app_nil_r.
  - rewrite ticks_S, IH. cbn [seq map].
    rewrite <- seq_shift, map_map.
    change (updates (snd (frame (running v) w)))
      with (updates w ++ (value (fst (frame (running v) w)) :: nil))%list.
    rewrite <- app_assoc. reflexivity.
Qed.

Lemma fires_running_scheduled (n : nat) :
  forall (v : Qc) (w : World) (k : nat),
    scheduled w = S k ->
    scheduled (snd (fires n (running v, w))) = S k
    /\ animating (fst (fires n (running v, w))) = true.
Proof.
  induction n as [| n IH]; intros v w k H.
  - cbn. auto.
  - cbn [fires]. unfold fire. cbn [fst snd]. rewrite H.
    apply (IH (value (fst (frame (running v) w)))
              (snd (frame (running v)
                      {| page := page w; scheduled := k;
                         updates := updates w |})) k).
    reflexivity.
Qed.

(** A running loop keeps exactly the callbacks it started with plus its
    own one outstanding: it neither dies out nor multiplies. *)
Theorem running_keeps_one_callback (n : nat) (v : Qc) (w : World) :
  scheduled (snd (fires n (animate v w))) = S (scheduled w)
  /\ animating (fst (fires n (animate v w))) = true.
Proof.
  exact (fires_running_scheduled n (value (fst (frame (running v) w)))
           (snd (animate v w)) (scheduled w) eq_refl).
Qed.

(** Once removed, the loop only uses its callbacks up: each one that comes
    due is taken off and none is added, so after as many as were
    outstanding nothing is left to run. *)
Theorem removed_drains_callbacks (n : nat) :
  forall (c : Closure) (w : World),
    scheduled (snd (fires n (remove c, w))) = (scheduled w - n)%nat.
Proof.
  induction n as [| n IH]; intros c w.
  - cbn. lia.
  - destruct (fire_stopped (remove c, w) eq_refl) as (Hc & _ & _ & Hs).
    cbn [fires]. cbn [fst snd] in Hc, Hs.
    destruct (fire (remove c, w)) as [c' w'] eqn:E. cbn [fst snd] in Hc, Hs.
    subst c'. rewrite IH, Hs. lia.
Qed.

End AnimationRuns.

(** ** The application under clicks, drags and timers *)

Section AppFacts.
Import App.

Lemma setNth_length {A : Type} (i : nat) (a : A) (l : list A) :
  List.length (setNth i a l) = List.length l.
Proof.
  revert i. induction l as [| b l IH]; intros [| i]; cbn; auto.
Qed.

Lemma setNth_same {A : Type} (i : nat) (a : A) (l : list A) :
  (i < List.length l)%nat -> nth_error (setNth i a l) i = Some a.
Proof.
  revert i. induction l as [| b l IH]; intros [| i] H; cbn in *;
    try lia; auto.
  apply IH. lia.
Qed.

Lemma setNth_other {A : Type} (i j : nat) (a : A) (l : list A) :
  i <> j -> nth_error (setNth i a l) j = nth_error l j.
Proof.
  revert i j. induction l as [| b l IH]; intros [| i] [| j] H; cbn;
    try reflexivity; try lia.
  apply IH. lia.
Qed.

Lemma nth_error_lt {A : Type} (l : list A) (i : nat) (a : A) :
  nth_error l i = Some a -> (i < List.length l)%nat.
Proof. intro H. apply nth_error_Some. congruence. Qed.

Lemma wf_initial : wf initial.
Proof.
  repeat split; cbn; try congruence; try discriminate.
  all: intros; destruct i; discriminate.
Qed.

Lemma stopAnimation_fields (a : t) :
  animation (stopAnimation a) = None /\ page (stopAnimation a) = page a
  /\ updates (stopAnimation a) = updates a
  /\ (animation a <> None -> toggled (stopAnimation a) = false)
  /\ (animation a = None -> stopAnimation a = a).
Proof.
  unfold stopAnimation. destruct (animation a) eqn:E; cbn; repeat split;
    auto; congruence.
Qed.

Lemma wf_stopAnimation (a : t) : wf a -> wf (stopAnimation a).
Proof.
  intro W. unfold stopAnimation.
  destruct (animation a) as [i |] eqn:E; [| exact W].
  destruct W as (Ht & Hi & Hc). specialize (Hi i E).
  destruct (nth_error (closures a) i) as [[c n] |] eqn:N;
    [| apply nth_error_None in N; lia].
  split; [| split]; cbn.
  - split; [discriminate | congruence].
  - discriminate.
  - intros j c' n' H.
    destruct (Nat.eq_dec i j) as [<- | D].
    + rewrite setNth_same in H by exact Hi. injection H as <- <-.
      destruct (Hc i c n N) as (_ & _ & L).
      repeat split; cbn; try discriminate; auto.
    + rewrite setNth_other in H by exact D.
      destruct (Hc j c' n' H) as (Ha & _ & L).
      assert (F : Animation.animating c' = false).
      { destruct (Animation.animating c'); [| reflexivity].
        destruct Ha as [Ha _]. specialize (Ha eq_refl). congruence. }
      rewrite F. repeat split; try discriminate; auto.
Qed.

Lemma wf_stopped_closures (a : t) (i : nat) (c : Animation.Closure) (n : nat) :
  wf a -> animation a = None ->
  nth_error (closures a) i = Some (c, n) ->
  Animation.animating c = false /\ (n <= 1)%nat.
Proof.
  intros (_ & _ & Hc) E N. destruct (Hc i c n N) as (Ha & _ & L).
  split; [| exact L].
  destruct (Animation.animating c); [| reflexivity].
  destruct Ha as [Ha _]. specialize (Ha eq_refl). congruence.
Qed.

Lemma wf_startAnimation (a : t) : wf a -> wf (startAnimation a).
Proof.
  intro W. apply wf_stopAnimation in W.
  destruct (stopAnimation_fields a) as (E & _).
  unfold startAnimation. set (a1 := stopAnimation a) in *.
  split; [| split]; cbn.
  - split; [discriminate | reflexivity].
  - intros i [= <-]. rewrite length_app. cbn. lia.
  - intros j c n H.
    destruct (Nat.lt_ge_cases j (List.length (closures a1))) as [L | G].
    + rewrite nth_error_app1 in H by exact L.
      destruct (wf_stopped_closures a1 j c n W E H) as (F & B).
      rewrite F. repeat split; try discriminate; auto.
      intros [= X]. lia.
    + rewrite nth_error_app2 in H by exact G.
      destruct (j - List.length (closures a1))%nat as [| d] eqn:D;
        [| destruct d; discriminate].
      injection H as <- <-.
      assert (j = List.length (closures a1)) as -> by lia.
      repeat split; auto.
Qed.

Lemma wf_inputHandler (v : Qc) (a : t) : wf a -> wf (inputHandler v a).
Proof.
  intro W. apply wf_stopAnimation in W.
  destruct (stopAnimation_fields a) as (E & _).
  unfold inputHandler. set (a1 := stopAnimation a) in *.
  destruct W as (Ht & Hi & Hc).
  split; [| split]; cbn; auto.
  intros j c n H.
  destruct (wf_stopped_closures a1 j c n (conj Ht (conj Hi Hc)) E H)
    as (F & B).
  rewrite F, E. repeat split; try discriminate; auto.
Qed.

Lemma wf_click (a : t) : wf a -> wf (click a).
Proof.
  intro W. unfold click.
  destruct (toggled a); [now apply wf_stopAnimation | now apply wf_startAnimation].
Qed.

(** What a timer callback of closure [i] does in a well-formed state. *)
Lemma timer_cases (i : nat) (a : t) (c : Animation.Closure) (n : nat) :
  wf a -> nth_error (closures a) i = Some (c, n) ->
  (n = O /\ timer i a
            = {| page := page a; animation := animation a;
                 toggled := toggled a;
                 closures := setNth i (c, O) (closures a);
                 updates := updates a |})
  \/ (n = 1%nat /\ Animation.animating c = false
      /\ timer i a
         = {| page := page a; animation := animation a;
              toggled := toggled a;
              closures := setNth i (c, O) (closures a);
              updates := updates a |})
  \/ (n = 1%nat /\ Animation.animating c = true /\ animation a = Some i
      /\ timer i a
         = {| page := Page.setYear (nextValue (Page.thumb (page a))) (page a);
              animation := animation a; toggled := toggled a;
              closures :=
                setNth i (Animation.running (nextValue (Page.thumb (page a))),
                          1%nat) (closures a);
              updates := (updates a
                          ++ nextValue (Page.thumb (page a)) :: nil)%list |}).
Proof.
  intros (_ & _ & Hc) N. destruct (Hc i c n N) as (Ha & Hv & L).
  unfold timer. rewrite N.
  destruct n as [| [| n]]; [left | right | lia].
  - split; reflexivity.
  - destruct c as [[|] v].
    + right. destruct (Hv eq_refl) as (_ & V). cbn in V. subst v.
      repeat split; try reflexivity. now apply Ha.
    + left. repeat split; reflexivity.
Qed.

Lemma wf_timer (i : nat) (a : t) : wf a -> wf (timer i a).
Proof.
  intro W.
  destruct (nth_error (closures a) i) as [[c n] |] eqn:N;
    [| unfold timer; now rewrite N].
  pose proof (nth_error_lt _ _ _ N) as Li.
  pose proof W as (Ht & Hi & Hc).
  destruct (Hc i c n N) as (Ha & Hv & L).
  destruct (timer_cases i a c n W N)
    as [(-> & E) | [(-> & F & E) | (-> & T & An & E)]]; rewrite E;
    (split; [| split]; cbn; [exact Ht | | ]).
  - intros j Hj. rewrite setNth_length. now apply Hi.
  - intros j c' n' H. destruct (Nat.eq_dec i j) as [<- | D].
    + rewrite setNth_same in H by exact Li. injection H as <- <-.
      exact (conj Ha (conj Hv L)).
    + rewrite setNth_other in H by exact D. now apply Hc.
  - intros j Hj. rewrite setNth_length. now apply Hi.
  - intros j c' n' H. destruct (Nat.eq_dec i j) as [<- | D].
    + rewrite setNth_same in H by exact Li. injection H as <- <-.
      rewrite F. repeat split; try discriminate; auto.
      intro X. apply Ha in X. congruence.
    + rewrite setNth_other in H by exact D. now apply Hc.
  - intros j Hj. rewrite setNth_length. now apply Hi.
  - intros j c' n' H. destruct (Nat.eq_dec i j) as [<- | D].
    + rewrite setNth_same in H by exact Li. injection H as <- <-.
      repeat split; auto.
    + rewrite setNth_other in H by exact D.
      destruct (Hc j c' n' H) as (Ha' & _ & L').
      assert (F : Animation.animating c' = false).
      { destruct (Animation.animating c'); [| reflexivity].
        destruct Ha' as [Ha' _]. specialize (Ha' eq_refl). congruence. }
      rewrite F. repeat split; try discriminate; auto.
      intro X. rewrite An in X. congruence.
Qed.

Lemma wf_step (e : Event) (a : t) : wf a -> wf (step e a).
Proof.
  destruct e; cbn; [apply wf_inputHandler | apply wf_click | apply wf_timer].
Qed.

Lemma wf_run (es : list Event) : forall a, wf a -> wf (run es a).
Proof.
  induction es as [| e es IH]; intros a W; cbn; [exact W |].
  apply IH, wf_step, W.
Qed.

Lemma run_app (es1 es2 : list Event) (a : t) :
  run (es1 ++ es2) a = run es2 (run es1 a).
Proof.
  revert a. induction es1 as [| e es1 IH]; intro a; cbn; [reflexivity |].
  apply IH.
Qed.

Lemma wf_reachable (es : list Event) : wf (run es initial).
Proof. apply wf_run, wf_initial. Qed.

Lemma wf_animating_is_current (a : t) (i : nat) (c : Animation.Closure)
      (n : nat) :
  wf a -> nth_error (closures a) i = Some (c, n) ->
  Animation.animating c = true -> animation a = Some i /\ n = 1%nat.
Proof.
  intros (_ & _ & Hc) N T. destruct (Hc i c n N) as (Ha & Hv & _).
  split; [now apply Ha | now apply Hv].
Qed.

Lemma wf_current_entry (a : t) (i : nat) :
  wf a -> animation a = Some i ->
  exists c, nth_error (closures a) i = Some (c, 1%nat)
            /\ Animation.animating c = true.
Proof.
  intros W E. pose proof W as (_ & Hi & Hc).
  specialize (Hi i E).
  destruct (nth_error (closures a) i) as [[c n] |] eqn:N;
    [| apply nth_error_None in N; lia].
  destruct (Hc i c n N) as (Ha & Hv & _).
  assert (T : Animation.animating c = true) by now apply Ha.
  destruct (Hv T) as (-> & _). now exists c.
Qed.

Lemma timer_while_stopped (i : nat) (a : t) :
  wf a -> animation a = None ->
  page (timer i a) = page a /\ animation (timer i a) = None
  /\ updates (timer i a) = updates a.
Proof.
  intros W E.
  destruct (nth_error (closures a) i) as [[c n] |] eqn:N;
    [| unfold timer; rewrite N; auto].
  destruct (timer_cases i a c n W N)
    as [(_ & X) | [(_ & _ & X) | (_ & _ & An & _)]];
    [rewrite X; cbn; auto .. | congruence].
Qed.

Lemma timers_while_stopped (ks : list nat) :
  forall a, wf a -> animation a = None ->
    page (run (map Timer ks) a) = page a
    /\ animation (run (map Timer ks) a) = None
    /\ updates (run (map Timer ks) a) = updates a.
Proof.
  induction ks as [| k ks IH]; intros a W E; cbn; [auto |].
  destruct (timer_while_stopped k a W E) as (P & A & U).
  destruct (IH (timer k a) (wf_timer k a W) A) as (P' & A' & U').
  rewrite P', A', U'. auto.
Qed.

(** The play button is toggled exactly when an animation is held, after
    any sequence of drags, clicks and timers. *)
Theorem button_matches_animation (es : list Event) :
  toggled (run es initial) = true <-> animation (run es initial) <> None.
Proof. exact (proj1 (wf_reachable es)). Qed.

(** At most one animation runs: after any sequence of events, two
    closures that are both animating are one and the same, the one whose
    handle the script holds. *)
Theorem at_most_one_animating (es : list Event) (i j : nat)
        (ci cj : Animation.Closure) (ni nj : nat) :
  nth_error (closures (run es initial)) i = Some (ci, ni) ->
  nth_error (closures (run es initial)) j = Some (cj, nj) ->
  Animation.animating ci = true -> Animation.animating cj = true ->
  i = j /\ animation (run es initial) = Some i.
Proof.
  intros Ni Nj Ti Tj.
  destruct (wf_animating_is_current _ i ci ni (wf_reachable es) Ni Ti)
    as (Ei & _).
  destruct (wf_animating_is_current _ j cj nj (wf_reachable es) Nj Tj)
    as (Ej & _).
  split; [congruence | exact Ei].
Qed.

Lemma at_most_one_animating_witness :
  nth_error (closures (run (Click :: Click :: Click :: nil) initial)) 1
  = Some (Animation.running '1872, 1%nat)
  /\ 1%nat = 1%nat
  /\ animation (run (Click :: Click :: Click :: nil) initial) = Some 1%nat.
Proof.
  assert (N : nth_error
                (closures (run (Click :: Click :: Click :: nil) initial)) 1
              = Some (Animation.running '1872, 1%nat)).
  { cbn. unfold Animation.running. repeat f_equal.
    apply Qc_is_canon. reflexivity. }
  split; [exact N |].
  exact (at_most_one_animating (Click :: Click :: Click :: nil) 1 1
           _ _ 1 1 N N eq_refl eq_refl).
Defined.

(** No closure ever has more than one timer callback outstanding, and the
    animating one has exactly one: stopping and starting again does not
    make the years run faster. *)
Theorem one_callback_per_closure (es : list Event) (i : nat)
        (c : Animation.Closure) (n : nat) :
  nth_error (closures (run es initial)) i = Some (c, n) ->
  (n <= 1)%nat /\ (Animation.animating c = true -> n = 1%nat).
Proof.
  intro N. destruct (wf_reachable es) as (_ & _ & Hc).
  destruct (Hc i c n N) as (_ & Hv & L).
  split; [exact L | intro T; now apply Hv].
Qed.

Lemma one_callback_per_closure_witness :
  nth_error (closures (run (Click :: Click :: Click :: nil) initial)) 0
  = Some (Animation.remove (Animation.running '1871.5), 1%nat)
  /\ (1 <= 1)%nat.
Proof.
  assert (N : nth_error
                (closures (run (Click :: Click :: Click :: nil) initial)) 0
              = Some (Animation.remove (Animation.running '1871.5), 1%nat)).
  { cbn. unfold Animation.remove, Animation.running. cbn. repeat f_equal.
    apply Qc_is_canon. reflexivity. }
  split; [exact N |].
  exact (proj1 (one_callback_per_closure
                  (Click :: Click :: Click :: nil) 0 _ _ N)).
Defined.

(** Dragging the slider stops the animation for good: whatever happened
    before, after a drag to [v] the page shows [v], no animation is held
    and the button is untoggled, and timer callbacks that come due
    afterwards change none of that. *)
Theorem drag_stops_animation (es : list Event) (v : Qc) (ks : list nat) :
  page (run (es ++ Drag v :: map Timer ks) initial)
  = {| Page.sliderValue := JS.to_string (JS.floor v); Page.thumb := v;
       Page.renderer := Some (Renderer.createRenderer v) |}
  /\ animation (run (es ++ Drag v :: map Timer ks) initial) = None
  /\ toggled (run (es ++ Drag v :: map Timer ks) initial) = false.
Proof.
  assert (W : wf (run (es ++ Drag v :: map Timer ks) initial))
    by apply wf_reachable.
  rewrite run_app in *. cbn [run step] in *.
  set (a := run es initial) in *.
  assert (Wa : wf (inputHandler v a))
    by (apply wf_inputHandler, wf_reachable).
  assert (E : animation (inputHandler v a) = None)
    by (cbn; apply stopAnimation_fields).
  destruct (timers_while_stopped ks (inputHandler v a) Wa E) as (P & A & _).
  rewrite P, A. repeat split.
  destruct W as (Ht & _). rewrite A in Ht.
  destruct (toggled _); [| reflexivity].
  destruct Ht as [Ht _]. now destruct (Ht eq_refl).
Qed.

(** A click on the play button flips it.  When it was toggled, the click
    stops the animation and leaves the page alone.  When it was not, the
    click starts a new animation from the slider's value, and this first
    tick is made at once: the page already shows the next value. *)
Theorem click_toggles (es : list Event) :
  (toggled (run es initial) = true ->
   page (click (run es initial)) = page (run es initial)
   /\ toggled (click (run es initial)) = false
   /\ animation (click (run es initial)) = None)
  /\ (toggled (run es initial) = false ->
      page (click (run es initial))
      = Page.setYear (nextValue (Page.thumb (page (run es initial))))
                     (page (run es initial))
      /\ toggled (click (run es initial)) = true
      /\ animation (click (run es initial))
         = Some (List.length (closures (run es initial)))).
Proof.
  pose proof (wf_reachable es) as W. set (a := run es initial) in *.
  destruct W as (Ht & _). unfold click. split; intro T; rewrite T.
  - destruct (stopAnimation_fields a) as (E & P & _ & F & _).
    rewrite E, P, F; auto. now apply Ht.
  - assert (E : animation a = None).
    { destruct (animation a); [| reflexivity].
      destruct Ht as [_ Ht]. rewrite Ht in T; [discriminate | discriminate]. }
    destruct (stopAnimation_fields a) as (_ & _ & _ & _ & S).
    unfold startAnimation. rewrite (S E). cbn. auto.
Qed.

Lemma click_toggles_witness :
  toggled (run (Drag '2022 :: nil) initial) = false
  /\ page (click (run (Drag '2022 :: nil) initial))
     = Page.setYear (nextValue (Page.thumb (page (run (Drag '2022 :: nil) initial))))
                    (page (run (Drag '2022 :: nil) initial)).
Proof.
  assert (T : toggled (run (Drag '2022 :: nil) initial) = false)
    by reflexivity.
  split; [exact T |].
  exact (proj1 (proj2 (click_toggles (Drag '2022 :: nil)) T)).
Defined.

(** While an animation is held, its timer callback moves the page on by
    one tick from the value shown, and the callbacks of the closures
    stopped earlier leave the page as it is. *)
Theorem timer_advances_current (es : list Event) (i : nat) :
  animation (run es initial) = Some i ->
  page (timer i (run es initial))
  = Page.setYear (nextValue (Page.thumb (page (run es initial))))
                 (page (run es initial))
  /\ (forall j, j <> i ->
        page (timer j (run es initial)) = page (run es initial)).
Proof.
  pose proof (wf_reachable es) as W. set (a := run es initial) in *.
  intro E. split.
  - destruct (wf_current_entry a i W E) as (c & N & T).
    destruct (timer_cases i a c 1 W N)
      as [(X & _) | [(_ & F & _) | (_ & _ & _ & X)]];
      [discriminate | congruence | now rewrite X].
  - intros j D.
    destruct (nth_error (closures a) j) as [[c n] |] eqn:N;
      [| unfold timer; now rewrite N].
    destruct (timer_cases j a c n W N)
      as [(_ & X) | [(_ & _ & X) | (_ & _ & An & _)]];
      [now rewrite X | now rewrite X | congruence].
Qed.

Lemma timer_advances_current_witness :
  animation (run (Click :: nil) initial) = Some 0%nat
  /\ page (timer 0 (run (Click :: nil) initial))
     = Page.setYear (nextValue (Page.thumb (page (run (Click :: nil) initial))))
                    (page (run (Click :: nil) initial)).
Proof.
  assert (E : animation (run (Click :: nil) initial) = Some 0%nat)
    by reflexivity.
  split; [exact E |].
  exact (proj1 (timer_advances_current (Click :: nil) 0 E)).
Defined.

End AppFacts.

(** ** The tooltip over time *)

Section TooltipRuns.
Import Tooltip.

Lemma move_rendered (s : t) : Session.rendered (move s).
Proof. reflexivity. Qed.

Lemma apply_rendered (o : Session.Op) (s : t) :
  Session.rendered s -> Session.rendered (Session.apply o s).
Proof.
  intro R. destruct o; cbn.
  - apply move_rendered.
  - exact R.
  - unfold fire. destruct (frames s); [exact R | apply move_rendered].
Qed.

Lemma run_rendered (ops : list Session.Op) :
  forall s, Session.rendered s -> Session.rendered (Session.run ops s).
Proof.
  induction ops as [| o ops IH]; intros s R; cbn; [exact R |].
  apply IH, apply_rendered, R.
Qed.

(** From the first [show] on, the transform written to the element is
    always the one of the tracked position, rounded to whole pixels,
    whatever calls of [show] and [hide] and frames follow. *)
Theorem transform_follows_position
        (point : Point) (text : string) (ops : list Session.Op) (s : t) :
  transform (Session.run (Session.Show point text :: ops) s)
  = translate3d (x (Session.run (Session.Show point text :: ops) s))
                (y (Session.run (Session.Show point text :: ops) s)).
Proof.
  change (Session.rendered (Session.run ops (show point text s))).
  apply run_rendered, move_rendered.
Qed.

Lemma move_hide (s : t) : move (hide s) = hide (move s).
Proof. reflexivity. Qed.

Lemma fire_hide (s : t) : fire (hide s) = hide (fire s).
Proof.
  unfold fire. cbn [frames hide]. destruct (frames s); reflexivity.
Qed.

(** [hide] does not cancel the easing: the frames outstanding run on a
    hidden tooltip exactly as on a visible one, as many of them, to the
    same position. *)
Theorem settle_hide (fuel : nat) :
  forall s : t,
    settle fuel (hide s)
    = match settle fuel s with
      | Some (k, r) => Some (k, hide r)
      | None => None
      end.
Proof.
  induction fuel as [| fuel IH]; intro s.
  - cbn. destruct (frames s); reflexivity.
  - destruct (frames s) as [| j] eqn:F.
    + rewrite !settle_idle by (cbn; exact F). reflexivity.
    + rewrite (settle_S fuel (hide s) j) by (cbn; exact F).
      rewrite (settle_S fuel s j F), fire_hide, IH.
      destruct (settle fuel (fire s)) as [[k r] |]; reflexivity.
Qed.

End TooltipRuns.

(** ** The easing in numbers *)

Section EasingRuns.
Import Double Tooltip.
Local Open Scope Q_scope.

(** With all coordinates at most [2^26] pixels in magnitude, the step of
    a run of [move] leaves on each axis nine tenths of the distance to
    the target, up to [2^-20] of a pixel of rounding.  The run then
    either puts the position on the target and schedules nothing, and the
    step left less than [1 + 2^-22] pixels on both axes; or it keeps the
    step and schedules a frame, and the step left at least [1 - 2^-22]
    pixels on an axis. *)
Theorem move_between (s : t) :
  inRange s = true ->
  (Qabs (gap (targetX s) (stepX s) - (9 # 10) * gap (targetX s) (x s))
   <= 2 ^ (-20)
   /\ Qabs (gap (targetY s) (stepY s) - (9 # 10) * gap (targetY s) (y s))
      <= 2 ^ (-20))
  /\ ((x (move s) = targetX s /\ y (move s) = targetY s
       /\ frames (move s) = frames s
       /\ Qabs (gap (targetX s) (stepX s)) < 1 + 2 ^ (-22)
       /\ Qabs (gap (targetY s) (stepY s)) < 1 + 2 ^ (-22))
      \/ (x (move s) = stepX s /\ y (move s) = stepY s
          /\ frames (move s) = S (frames s)
          /\ (1 - 2 ^ (-22) <= Qabs (gap (targetX s) (stepX s))
              \/ 1 - 2 ^ (-22) <= Qabs (gap (targetY s) (stepY s))))).
Proof.
  intro R. pose proof (inRange_within s R) as W.
  apply within_spec in W. destruct W as [WX WY].
  destruct (inside_step _ _ _ WX) as (FtX & FeX & BX & LX).
  destruct (inside_step _ _ _ WY) as (FtY & FeY & BY & LY).
  split; [split; [exact BX | exact BY] |].
  destruct (near (targetX s) (targetY s) (stepX s) (stepY s)) eqn:N.
  - left. destruct (move_near s N) as (EX & EY & EF).
    apply near_abs in N. destruct N as [NX NY].
    repeat split; try assumption.
    + exact (test_true_inv _ _ FtX FeX LX NX).
    + exact (test_true_inv _ _ FtY FeY LY NY).
  - right. destruct (move_far s N) as (EX & EY & EF).
    apply near_false in N.
    repeat split; try assumption.
    destruct N as [NX | NY]; [left | right].
    + exact (test_false _ _ FtX FeX LX NX).
    + exact (test_false _ _ FtY FeY LY NY).
Qed.

Lemma move_between_witness :
  inRange (at_ 19 0 100 0) = true
  /\ Qabs (gap 100 (stepX (at_ 19 0 100 0)) - (9 # 10) * gap 100 19)
     <= 2 ^ (-20).
Proof.
  assert (R : inRange (at_ 19 0 100 0) = true) by (vm_compute; reflexivity).
  split; [exact R |].
  exact (proj1 (proj1 (move_between (at_ 19 0 100 0) R))).
Defined.

(** The easing loop stops, and fast: with the targets at most [2^26]
    pixels in magnitude and the position at most [2^27] and at most
    [(10/9)^n + 2^-16] pixels from the target on both axes, the frames
    outstanding all run, at most [n] of them schedule another one, and
    they leave the position exactly on the target and no frame
    outstanding. *)
Theorem settle_within (n : nat) (s : t) :
  within n s = true -> (1 <= frames s)%nat ->
  exists k r, settle (n + frames s) s = Some (k, r)
              /\ (1 <= k <= n + frames s)%nat
              /\ x r = targetX s /\ y r = targetY s
              /\ visible r = visible s /\ frames r = O.
Proof.
  intros W F.
  destruct (settle_reaches (n + frames s) n s W F (le_n _))
    as (k & r & E & B & RX & RY & _ & _ & V & _ & _ & R0).
  exists k, r. repeat split; try assumption; lia.
Qed.

Lemma settle_within_witness :
  within 43 (move (at_ 0 0 100 0)) = true
  /\ (1 <= frames (move (at_ 0 0 100 0)))%nat
  /\ exists k r,
       settle (43 + frames (move (at_ 0 0 100 0))) (move (at_ 0 0 100 0))
       = Some (k, r)
       /\ (1 <= k <= 43 + frames (move (at_ 0 0 100 0)))%nat
       /\ x r = targetX (move (at_ 0 0 100 0))
       /\ y r = targetY (move (at_ 0 0 100 0))
       /\ visible r = visible (move (at_ 0 0 100 0)) /\ frames r = O.
Proof.
  assert (W : within 43 (move (at_ 0 0 100 0)) = true)
    by (vm_compute; reflexivity).
  assert (F : (1 <= frames (move (at_ 0 0 100 0)))%nat)
    by (vm_compute; lia).
  split; [exact W |]. split; [exact F |].
  exact (settle_within 43 (move (at_ 0 0 100 0)) W F).
Defined.

End EasingRuns.

(** ** The hover listener over time *)

Section HoverRuns.
Import Hover.

Lemma find_first {A : Type} (f : A -> bool) (l : list A) (a : A) :
  find f l = Some a ->
  f a = true
  /\ exists before after,
       l = (before ++ a :: after)%list
       /\ Forall (fun b => f b = false) before.
Proof.
  induction l as [| b l IH]; cbn; [discriminate |].
  destruct (f b) eqn:E.
  - intros [= ->]. split; [exact E |]. exists nil, l. split; [reflexivity |].
    constructor.
  - intro H. destruct (IH H) as (T & before & after & -> & F).
    split; [exact T |]. exists (b :: before), after.
    split; [reflexivity |]. now constructor.
Qed.

Lemma on_layer_false (g : Graphic) :
  Nat.eqb (glayer g) layer = false <-> glayer g <> layer.
Proof. apply Nat.eqb_neq. Qed.

(** Of the features a hit test returns, the listener takes the first one
    that belongs to the script's layer, with the hit's screen point; it
    takes none exactly when no returned feature belongs to the layer, as
    when nothing was hit at all. *)
Theorem hitTest_takes_first_on_layer (raw : HitTestResult) :
  match hitTest (Fulfilled raw) with
  | Fulfilled (Some h) =>
      screenPoint h = rawScreenPoint raw
      /\ glayer (graphic h) = layer
      /\ exists before after,
           results raw = (before ++ graphic h :: after)%list
           /\ Forall (fun g => glayer g <> layer) before
  | Fulfilled None => Forall (fun g => glayer g <> layer) (results raw)
  | Rejected _ => False
  end.
Proof.
  rewrite hitTest_fulfilled.
  destruct (find (fun g => Nat.eqb (glayer g) layer) (results raw))
    as [g |] eqn:E.
  - destruct (find_first _ _ _ E) as (T & before & after & R & F).
    cbn. split; [reflexivity |]. split; [now apply Nat.eqb_eq |].
    exists before, after. split; [exact R |].
    eapply Forall_impl; [| exact F]. intros b. apply on_layer_false.
  - apply Forall_forall. intros g I. apply on_layer_false.
    exact (find_none _ _ E g I).
Qed.

(** Rejected hit tests leave no trace: a run of the listener is the run
    with the rejected hit tests taken out. *)
Theorem rejections_leave_no_trace (es : list Session.Event) :
  forall s : t,
    Session.hover es s
    = Session.hover
        (filter (fun e => match e with
                          | Session.Pointer p => Session.fulfilled p
                          | Session.Tick => true
                          end) es) s.
Proof.
  induction es as [| e es IH]; intro s; [reflexivity |].
  destruct e as [[raw | reason] |]; cbn [filter Session.fulfilled].
  - cbn [Session.hover]. apply IH.
  - cbn [Session.hover Session.step]. apply IH.
  - cbn [Session.hover]. apply IH.
Qed.

Lemma fire_keeps_text (s : Tooltip.t) :
  Tooltip.visible (Tooltip.fire s) = Tooltip.visible s
  /\ Tooltip.innerHTML (Tooltip.fire s) = Tooltip.innerHTML s.
Proof.
  unfold Tooltip.fire. destruct (Tooltip.frames s); split; reflexivity.
Qed.

Lemma step_telling (e : Session.Event) (s : t) :
  consistent s /\ Session.telling s ->
  consistent (Session.step e s) /\ Session.telling (Session.step e s).
Proof.
  intros (C & T). destruct e as [[raw | reason] |]; cbn [Session.step].
  - split; [now apply pointerMove_consistent |].
    unfold pointerMove. rewrite hitTest_fulfilled. cbn [fst].
    unfold Session.telling.
    destruct (find _ (results raw)) as [g |].
    + destruct (onHit_some {| graphic := g;
                              screenPoint := rawScreenPoint raw |} s C)
        as (L & _ & Tt).
      rewrite L, Tt. split; reflexivity.
    + destruct (onHit_none s C) as (L & _ & Tt). rewrite L, Tt. reflexivity.
  - split; assumption.
  - split; [exact C |]. unfold Session.telling in *. cbn.
    destruct (fire_keeps_text (tooltip s)) as (V & I). rewrite V, I.
    exact T.
Qed.

(** The tooltip always tells of the highlighted feature.  After any run
    of settled hit tests and tooltip frames from set-up: with no
    highlight the tooltip is hidden; with one, it is visible and reads
    "Titled in " followed by that feature's construction year; and there
    is never a second highlight. *)
Theorem tooltip_tells_highlight (es : list Session.Event) :
  Session.telling (Session.hover es setupHoverTooltip)
  /\ consistent (Session.hover es setupHoverTooltip).
Proof.
  assert (H : forall s, consistent s /\ Session.telling s ->
                        consistent (Session.hover es s)
                        /\ Session.telling (Session.hover es s)).
  { induction es as [| e es IH]; intros s J; cbn; [exact J |].
    apply IH, step_telling, J. }
  destruct (H setupHoverTooltip) as (C & T).
  - split; reflexivity.
  - split; assumption.
Qed.

End HoverRuns.

(** ** Labels *)

Section LabelFacts.
Import Renderer.

Lemma to_string_inj (a b : Z) : JS.to_string a = JS.to_string b -> a = b.
Proof.
  unfold JS.to_string. intro H.
  apply DecimalZ.to_int_inj.
  assert (P : forall z, NilZero.int_of_string
                          (NilZero.string_of_int (Z.to_int z))
                        = Some (Z.to_int z)).
  { intro z. apply NilZero.isi; destruct z; cbn; try discriminate.
    - intros [= X]. revert X. apply DecimalPos.Unsigned.to_uint_nonnil.
    - intros [= X]. revert X. apply DecimalPos.Unsigned.to_uint_nonnil. }
  pose proof (P a) as Pa. rewrite H, P in Pa. now injection Pa.
Qed.

Lemma floor_unique (v : Qc) (z : Z) :
  (inject_Z z <= v)%Q -> (v < inject_Z (z + 1))%Q -> JS.floor v = z.
Proof.
  intros L U. destruct (floor_spec v) as (L' & U').
  rewrite inject_Z_plus in U, U'. change (inject_Z 1) with 1%Q in U, U'.
  assert (A : (inject_Z (JS.floor v) < inject_Z (z + 1))%Q).
  { rewrite inject_Z_plus. change (inject_Z 1) with 1%Q. lra. }
  assert (B : (inject_Z z < inject_Z (JS.floor v + 1))%Q).
  { rewrite inject_Z_plus. change (inject_Z 1) with 1%Q. lra. }
  rewrite <- Zlt_Qlt in A, B. lia.
Qed.

Lemma floor_minus (v : Qc) (n : Z) :
  JS.floor (v - Q2Qc (inject_Z n)) = (JS.floor v - n)%Z.
Proof.
  destruct (floor_spec v) as (L & U).
  rewrite inject_Z_plus in U. change (inject_Z 1) with 1%Q in U.
  apply floor_unique.
  - unfold Z.sub. rewrite inject_Z_plus, inject_Z_opp.
    set (f := inject_Z (JS.floor v)) in *. set (m := inject_Z n) in *.
    clearbody f m. qc_lra.
  - replace (JS.floor v - n + 1)%Z with (JS.floor v + 1 + - n)%Z by lia.
    rewrite !inject_Z_plus, inject_Z_opp. change (inject_Z 1) with 1%Q.
    set (f := inject_Z (JS.floor v)) in *. set (m := inject_Z n) in *.
    clearbody f m. qc_lra.
Qed.

(** Each colour stop's label names the floor of the stop's own value:
    the floor of [year - 10] on the second stop and of [year - 20] on the
    third, although the script takes the floor of [year] first and
    subtracts afterwards. *)
Theorem labels_name_stop_values (year : Qc) :
  colorStopsOf (createRenderer year)
  = [ {| cvalue := year; color := "#e7ed8a";
         label := "in " ++ JS.to_string (JS.floor year) |};
      {| cvalue := year - '10; color := "#eaed13";
         label := "in " ++ JS.to_string (JS.floor (year - '10)) |};
      {| cvalue := year - '20; color := "#007af4";
         label := "before " ++ JS.to_string (JS.floor (year - '20)) |} ].
Proof.
  change ('10) with (Q2Qc (inject_Z 10)).
  change ('20) with (Q2Qc (inject_Z 20)).
  now rewrite !floor_minus.
Qed.

(** Years get the same labels exactly when they have the same floor: the
    year label of the page, and the legend labels of the renderer, change
    when and only when the year passes a whole number. *)
Theorem labels_change_with_floor (y1 y2 : Qc) (p q : Page.t) :
  (Page.sliderValue (Page.setYear y1 p) = Page.sliderValue (Page.setYear y2 q)
   <-> JS.floor y1 = JS.floor y2)
  /\ (map label (colorStopsOf (createRenderer y1))
      = map label (colorStopsOf (createRenderer y2))
      <-> JS.floor y1 = JS.floor y2).
Proof.
  split; split.
  - cbn. apply to_string_inj.
  - cbn. now intros ->.
  - cbn. intros [= H _ _]. now apply to_string_inj.
  - cbn. now intros ->.
Qed.

End LabelFacts.
